(** * mock_docker_registry: digests, image references and scoped tokens

    A shallow embedding of the trust- and naming-boundary code of the
    registry mock:
      - [models/model.py]               ValidatedValue
      - [models/repository/__init__.py] Digest, DockerImageReferenceParts,
                                        DockerImageReference, Blob
      - [utils/error_utils.py]          mutually_exclusive, one_required,
                                        all_required
      - [auth/validate.py]              get_token_data, scope_is_allowed,
                                        validate_token_data
      - [auth/generate.py]              create_jwt, create_token
      - [models/error.py]               ErrorCode, ErrorMessage,
                                        ExceptionMapping

    Python text is modelled by [string] read as ASCII text (code points
    below 128); a Python call that may raise is a function into [result]. *)

From Stdlib Require Import String Ascii List ZArith Lia Bool Arith DecimalString.
From Stdlib Require DecimalPos.
Import ListNotations.

Local Open Scope list_scope.
Local Open Scope string_scope.

Set Implicit Arguments.

(* ================================================================= *)
(** ** Python results and exceptions *)

(** The exception classes of python-jose that [jwt.decode] documents.
    [ExpiredSignatureError] and [JWTClaimsError] both derive from
    [JWTError]; neither derives from the other. *)
Inductive jose_exception : Type :=
| JWTError
| ExpiredSignatureError
| JWTClaimsError.

Inductive exn : Type :=
| TypeError
| ValueError
| KeyError
| AssertionError
| AttributeError
| Jose (e : jose_exception).

Inductive result (A : Type) : Type :=
| Return (a : A)
| Raise (e : exn).

Arguments Return {A} a.
Arguments Raise {A} e.

Definition bind {A B : Type} (c : result A) (k : A -> result B) : result B :=
  match c with
  | Return a => k a
  | Raise e => Raise e
  end.

Declare Scope py_scope.
Delimit Scope py_scope with py.
Notation "x <- c ;; k" := (bind c (fun x => k))
  (at level 61, c at next level, right associativity) : py_scope.
Notation "c ;;; k" := (bind c (fun _ => k))
  (at level 61, right associativity) : py_scope.
Local Open Scope py_scope.

(** [assert b] *)
Definition py_assert (b : bool) : result unit :=
  if b then Return tt else Raise AssertionError.

(* ================================================================= *)
(** ** Text helpers *)

Definition in_range (lo hi c : ascii) : bool :=
  (Ascii.leb lo c && Ascii.leb c hi)%bool.

Definition is_digit (c : ascii) : bool := in_range "0" "9" c.
Definition is_lower (c : ascii) : bool := in_range "a" "z" c.
Definition is_upper (c : ascii) : bool := in_range "A" "Z" c.

(** [c in s] for a one-character [c]. *)
Fixpoint char_in (c : ascii) (s : string) : bool :=
  match s with
  | EmptyString => false
  | String d s' => (Ascii.eqb c d || char_in c s')%bool
  end.

(** [all(p(c) for c in s)] *)
Fixpoint str_all (p : ascii -> bool) (s : string) : bool :=
  match s with
  | EmptyString => true
  | String c s' => (p c && str_all p s')%bool
  end.

(** [str.lower()] on ASCII text. *)
Definition lower_char (c : ascii) : ascii :=
  if is_upper c then ascii_of_nat (nat_of_ascii c + 32) else c.

Fixpoint lower (s : string) : string :=
  match s with
  | EmptyString => EmptyString
  | String c s' => String (lower_char c) (lower s')
  end.

(** [s[n:]] *)
Fixpoint drop (n : nat) (s : string) : string :=
  match n, s with
  | O, _ => s
  | S _, EmptyString => EmptyString
  | S n', String _ s' => drop n' s'
  end.

(** [s[:n]] *)
Fixpoint take (n : nat) (s : string) : string :=
  match n, s with
  | O, _ => EmptyString
  | S _, EmptyString => EmptyString
  | S n', String c s' => String c (take n' s')
  end.

(** [s.startswith(p)] and [s.removeprefix(p)] *)
Fixpoint startswith (s p : string) {struct p} : bool :=
  match p with
  | EmptyString => true
  | String a p' =>
      match s with
      | EmptyString => false
      | String b s' => (Ascii.eqb a b && startswith s' p')%bool
      end
  end.

Definition removeprefix (s p : string) : string :=
  if startswith s p then drop (String.length p) s else s.

(** [string.hexdigits] *)
Definition hexdigits : string := "0123456789abcdefABCDEF".

(** [d[k]] on a dict given as an association list; a missing key raises
    [KeyError]. *)
Fixpoint assoc {V : Type} (d : list (string * V)) (k : string) : option V :=
  match d with
  | [] => None
  | (k', v) :: d' => if String.eqb k' k then Some v else assoc d' k
  end.

Definition getitem {V : Type} (d : list (string * V)) (k : string) : result V :=
  match assoc d k with
  | Some v => Return v
  | None => Raise KeyError
  end.

(* ================================================================= *)
(** ** models/model.py: ValidatedValue *)

Module ValidatedValue.

(** The objects that [validate] hands to [functools.reduce]: the value
    under validation (a [str]) and the entries of [__validators__],
    which the class body stores as plain [classmethod] objects. *)
Inductive pyobj : Type :=
| PStr (s : string)
| PClassMethod (f : string -> result string).

(** [callee(arg)].  A [str] is not callable, and neither is a bare
    [classmethod] object taken from the class body (it was never bound
    through the descriptor protocol): both raise [TypeError]. *)
Definition py_call (callee arg : pyobj) : result pyobj :=
  match callee with
  | PStr _ => Raise TypeError
  | PClassMethod _ => Raise TypeError
  end.

(** [def _do_validation(func_, value_): return func_(value_)] *)
Definition _do_validation (func_ value_ : pyobj) : result pyobj :=
  py_call func_ value_.

(** [functools.reduce(function, iterable, initial)]: the accumulator is
    the FIRST argument of [function], the item the second. *)
Fixpoint reduce (function : pyobj -> pyobj -> result pyobj)
         (iterable : list pyobj) (initial : pyobj) : result pyobj :=
  match iterable with
  | [] => Return initial
  | item :: rest =>
      acc <- function initial item ;; reduce function rest acc
  end.

(** [reduce(_do_validation, validated_type.__get_validators__(), value)] *)
Definition validate (validators : list pyobj) (value : pyobj) : result pyobj :=
  reduce _do_validation validators value.

End ValidatedValue.

(* ================================================================= *)
(** ** models/repository/__init__.py: Digest *)

Module Digest.
Import ValidatedValue.

Section WithHashlib.

(** [hashlib.algorithms_available], which depends on the interpreter's
    build.  Python leaves the iteration order of the set union
    unspecified; every prefix ends with the only colon it contains, so
    none shadows another and the order chosen here is immaterial. *)
Variable algorithms_available : list string.

Definition valid_algorithms : list string := ["sha256"].

Definition available_algorithms : list string :=
  (valid_algorithms ++ algorithms_available)%list.

Definition hash_lengths : list (string * nat) := [("sha256", 64)].

Definition valid_prefixes : list string :=
  map (fun algo => algo ++ ":") available_algorithms.

(** [_pop_prefix]: the first prefix of [valid_prefixes] that [value]
    starts with, and [value] without it; [(None, value)] if none. *)
Fixpoint pop_prefix_from (prefixes : list string) (value : string)
  : option string * string :=
  match prefixes with
  | [] => (None, value)
  | prefix :: rest =>
      if startswith value prefix
      then (Some prefix, removeprefix value prefix)
      else pop_prefix_from rest value
  end.

Definition _pop_prefix (value : string) : option string * string :=
  pop_prefix_from valid_prefixes value.

Definition is_prefixed (value : string) : result string :=
  if negb (existsb (startswith value) valid_prefixes)
  then Raise ValueError
  else Return value.

Definition is_hex (value : string) : result string :=
  let '(_, _hex) := _pop_prefix value in
  if negb (str_all (fun c => char_in c hexdigits) _hex)
  then Raise ValueError
  else Return value.

(** [cls.hash_lengths[_pfx]]: [_pfx] is [None] or a prefix that still
    carries its colon. *)
Definition hash_lengths_getitem (_pfx : option string) : result nat :=
  match _pfx with
  | None => Raise KeyError
  | Some k => getitem hash_lengths k
  end.

Definition is_correct_length (value : string) : result string :=
  let '(_pfx, _hex) := _pop_prefix value in
  expected <- hash_lengths_getitem _pfx ;;
  if negb (String.length _hex =? expected)%nat
  then Raise ValueError
  else Return value.

(** [__validators__ = [is_prefixed, is_hex, is_correct_length]] *)
Definition __validators__ : list pyobj :=
  [PClassMethod is_prefixed; PClassMethod is_hex;
   PClassMethod is_correct_length].

(** A [Digest] instance: its [_value]. *)
Record t : Type := mk { _value : string }.

Inductive init_arg : Type :=
| OfStr (value : string)
| OfDigest (value : t).

(** [ValidatedValue.__init__] at [type(self) = Digest]. *)
Definition __init__ (value : init_arg) : result t :=
  match value with
  | OfDigest d => Return (mk (_value d))
  | OfStr s =>
      v <- validate __validators__ (PStr s) ;;
      match v with
      | PStr s' => Return (mk s')
      | PClassMethod _ => Raise TypeError
      end
  end.

(** [__str__] *)
Definition __str__ (self : t) : string := lower (_value self).

(** [from_hex]: [cls(f"{algorithm}:{hex_digits}")] *)
Definition from_hex (hex_digits algorithm : string) : result t :=
  __init__ (OfStr (algorithm ++ ":" ++ hex_digits)).

(** The pipeline the validator list is meant to run: each validator
    applied to the value, in the listed order. *)
Definition validators_in_order (value : string) : result string :=
  v1 <- is_prefixed value ;;
  v2 <- is_hex v1 ;;
  is_correct_length v2.

(** [Blob.digest], with [hashlib.new(name, data).hexdigest()] given. *)
Variable hexdigest : string -> string -> string.

Definition Blob_digest (digest_algorithm data : string) : result t :=
  let _hex := hexdigest digest_algorithm data in
  from_hex _hex digest_algorithm.

End WithHashlib.

End Digest.

(* ================================================================= *)
(** ** Regular expressions, as Python's [re] runs them

    [DockerImageReferenceParts] is a set of [re] patterns.  They are kept
    here as syntax trees, and [run] is a backtracking matcher with the
    priorities of [re]: alternatives are tried left to right, repetitions
    are greedy, and the first complete path wins. *)

Module Re.

(** Members of a bracketed character class. *)
Inductive item : Type :=
| Ch (c : ascii)              (* a literal character *)
| Rng (lo hi : ascii)         (* lo-hi *)
| WordChar.                   (* \w, on ASCII text *)

Definition item_matches (i : item) (c : ascii) : bool :=
  match i with
  | Ch d => Ascii.eqb c d
  | Rng lo hi => in_range lo hi c
  | WordChar => (is_lower c || is_upper c || is_digit c || Ascii.eqb c "_")%bool
  end.

Definition in_class (cl : list item) (c : ascii) : bool :=
  existsb (fun i => item_matches i c) cl.

Inductive regex : Type :=
| Class (cl : list item)                          (* [...] *)
| Cat (r1 r2 : regex)                             (* r1 r2 *)
| Alt (r1 r2 : regex)                             (* r1|r2 *)
| Repeat (r : regex) (lo : nat) (hi : option nat) (* r{lo,hi}, greedy *)
| Group (name : string) (r : regex)               (* (?P<name>r) *)
| IfGroup (name : string) (yes no : regex)        (* (?(name)yes|no) *)
| Eol.                                            (* $ *)

Definition Star (r : regex) : regex := Repeat r 0 None.          (* r* *)
Definition Plus (r : regex) : regex := Repeat r 1 None.          (* r+ *)
Definition Opt (r : regex) : regex := Repeat r 0 (Some 1).       (* r? *)
Definition Lit (c : ascii) : regex := Class [Ch c].

(** Captured groups, most recent first. *)
Definition env : Type := list (string * string).

Definition cont : Type := string -> env -> option env.

(** [$] without MULTILINE: at the end of the text, or just before a
    newline that ends the text. *)
Definition at_eol (s : string) : bool :=
  match s with
  | EmptyString => true
  | String c EmptyString => Ascii.eqb c "010"
  | _ => false
  end.

(** A greedy repetition [body{lo,hi}] followed by [k]: one more
    iteration is tried first, and stopping here ([k] on the current
    text) is the fallback, allowed once the mandatory iterations are
    done.  Iterations are counted down a budget that no text can
    exhaust, since an iteration past the mandatory ones must consume a
    character. *)
Fixpoint rep (body : string -> env -> cont -> option env) (k : cont)
         (budget lo : nat) (hi : option nat) (s : string) (e : env)
         {struct budget} : option env :=
  let stop := if (lo =? 0)%nat then k s e else None in
  match budget, hi with
  | O, _ => stop
  | _, Some O => stop
  | S budget', _ =>
      match
        body s e
             (fun s' e' =>
                if ((lo =? 0)%nat && (String.length s' =? String.length s)%nat)%bool
                then None
                else rep body k budget' (pred lo) (option_map pred hi) s' e')
      with
      | Some m => Some m
      | None => stop
      end
  end.

(** [run r s e k]: match [r] at the head of [s] with captures [e], then
    hand the rest of the text to [k]; [None] when every path fails. *)
Fixpoint run (r : regex) (s : string) (e : env) (k : cont) {struct r}
  : option env :=
  match r with
  | Class cl =>
      match s with
      | String c s' => if in_class cl c then k s' e else None
      | EmptyString => None
      end
  | Cat r1 r2 => run r1 s e (fun s1 e1 => run r2 s1 e1 k)
  | Alt r1 r2 =>
      match run r1 s e k with
      | Some m => Some m
      | None => run r2 s e k
      end
  | Repeat r' lo hi =>
      rep (run r') k (lo + String.length s + 1) lo hi s e
  | Group name r' =>
      run r' s e
          (fun s' e' =>
             k s' ((name, take (String.length s - String.length s') s) :: e'))
  | IfGroup name yes no =>
      match assoc e name with
      | Some _ => run yes s e k
      | None => run no s e k
      end
  | Eol => if at_eol s then k s e else None
  end.

(** [pattern.match(s)]: anchored at the start only; the text after the
    match is not looked at. *)
Definition re_match (pattern : regex) (s : string) : option env :=
  run pattern s [] (fun _ e => Some e).

(** [match.groupdict()[name]] *)
Definition group (m : env) (name : string) : option string := assoc m name.

End Re.

(* ================================================================= *)
(** ** models/repository/__init__.py: DockerImageReferenceParts *)

Module DockerImageReferenceParts.
Import Re.

Definition alnum : list item := [Rng "a" "z"; Rng "A" "Z"; Rng "0" "9"].
Definition alnum_hyphen : list item :=
  [Rng "a" "z"; Rng "A" "Z"; Rng "0" "9"; Ch "-"].
Definition lower_alnum : list item := [Rng "a" "z"; Rng "0" "9"].

(** [[a-zA-Z0-9][a-zA-Z0-9-]*[a-zA-Z0-9]|[a-zA-Z0-9]] *)
Definition host_component : regex :=
  Alt (Cat (Class alnum) (Cat (Star (Class alnum_hyphen)) (Class alnum)))
      (Class alnum).

Definition _host_name_pattern_raw : regex :=
  Cat host_component (Star (Cat (Lit ".") host_component)).

(** [\[[a-fA-F0-9:]+\]] *)
Definition _ipv6_pattern_raw : regex :=
  Cat (Lit "[")
      (Cat (Plus (Class [Rng "a" "f"; Rng "A" "F"; Rng "0" "9"; Ch ":"]))
           (Lit "]")).

Definition _registry_pattern_raw : regex :=
  Cat (Group "host" (Alt _host_name_pattern_raw _ipv6_pattern_raw))
      (Opt (Cat (Lit ":") (Group "port" (Plus (Class [Rng "0" "9"]))))).

(** The separator group: one dot or underscore, or two underscores, or
    any number of dashes (possibly none), tried in this order. *)
Definition name_separator : regex :=
  Alt (Class [Ch "."; Ch "_"])
      (Alt (Cat (Lit "_") (Lit "_"))
           (Star (Class [Ch "-"]))).

(** One or more lowercase alphanumerics, then any number of groups of
    a separator followed by one or more lowercase alphanumerics. *)
Definition name_component : regex :=
  Cat (Plus (Class lower_alnum))
      (Star (Cat name_separator (Plus (Class lower_alnum)))).

Definition _repo_name_pattern_raw : regex :=
  Group "name" (Cat name_component (Star (Cat (Lit "/") name_component))).

(** [[\w][\w.-]{0,127}] *)
Definition _tag_pattern_raw : regex :=
  Group "tag"
        (Cat (Class [WordChar])
             (Repeat (Class [WordChar; Ch "."; Ch "-"]) 0 (Some 127))).

Definition letter : list item := [Rng "A" "Z"; Rng "a" "z"].
Definition letter_digit : list item := [Rng "A" "Z"; Rng "a" "z"; Rng "0" "9"].

Definition _digest_pattern_raw : regex :=
  Group "digest"
        (Cat (Class letter)
        (Cat (Star (Class letter_digit))
        (Cat (Star (Cat (Class [Ch "-"; Ch "_"; Ch "+"; Ch "."])
                   (Cat (Class letter) (Star (Class letter_digit)))))
        (Cat (Lit ":")
             (Repeat (Class [Rng "A" "F"; Rng "a" "f"; Rng "0" "9"])
                     32 None))))).

Definition _repo_pattern_raw : regex :=
  Cat (Opt (Cat _registry_pattern_raw (Lit "/"))) _repo_name_pattern_raw.

(** The repo, then optionally a colon and the tag, then optionally the
    conditional group: [$] if the tag group matched, else an at-sign
    and the digest. *)
Definition _image_pattern_raw : regex :=
  Cat _repo_pattern_raw
      (Cat (Opt (Cat (Lit ":") _tag_pattern_raw))
           (Opt (IfGroup "tag" Eol (Cat (Lit "@") _digest_pattern_raw)))).

Definition image_pattern : regex := _image_pattern_raw.

End DockerImageReferenceParts.

(* ================================================================= *)
(** ** utils/error_utils.py *)

Definition not_missing {V : Type} (kwargs : list (string * option V))
  : list string :=
  map fst (filter (fun kv => match snd kv with Some _ => true | None => false end)
                  kwargs).

Definition mutually_exclusive {V : Type} (kwargs : list (string * option V))
  : result unit :=
  if (1 <? length kwargs)%nat
  then if (1 <? length (not_missing kwargs))%nat
       then Raise ValueError
       else Return tt
  else Return tt.

Definition one_required {V : Type} (kwargs : list (string * option V))
  : result unit :=
  if (length (not_missing kwargs) <? 1)%nat
  then Raise ValueError
  else Return tt.

(** [all_required]: the names of the missing parameters are collected
    and any one of them is an error. *)
Definition missing {V : Type} (kwargs : list (string * option V))
  : list string :=
  map fst (filter (fun kv => match snd kv with Some _ => false | None => true end)
                  kwargs).

Definition all_required {V : Type} (kwargs : list (string * option V))
  : result unit :=
  if (0 <? length (missing kwargs))%nat
  then Raise ValueError
  else Return tt.

(* ================================================================= *)
(** ** The builtins [str(int)] and [int(str)] *)

Definition str_of_int (n : Z) : string :=
  DecimalString.NilZero.string_of_int (Z.to_int n).

(** Whitespace that [int] strips from ASCII text. *)
Definition is_space (c : ascii) : bool :=
  (in_range "009" "013" c || in_range "028" "032" c)%bool.

Fixpoint lstrip (s : string) : string :=
  match s with
  | String c s' => if is_space c then lstrip s' else s
  | EmptyString => EmptyString
  end.

Fixpoint rstrip (s : string) : string :=
  match s with
  | EmptyString => EmptyString
  | String c s' =>
      match rstrip s' with
      | EmptyString => if is_space c then EmptyString else String c EmptyString
      | r => String c r
      end
  end.

Definition digit_value (c : ascii) : Z := Z.of_nat (nat_of_ascii c - 48).

(** Decimal digits, single underscores allowed between two digits. *)
Fixpoint digits_value (acc : Z) (after_underscore : bool) (s : string)
  : option Z :=
  match s with
  | EmptyString => if after_underscore then None else Some acc
  | String c s' =>
      if is_digit c then digits_value (10 * acc + digit_value c) false s'
      else if (Ascii.eqb c "_" && negb after_underscore)%bool
           then digits_value acc true s'
           else None
  end.

Definition unsigned_value (s : string) : option Z :=
  match s with
  | String c _ => if is_digit c then digits_value 0 false s else None
  | EmptyString => None
  end.

(** [int(s)] in base 10 on ASCII text. *)
Definition int_of_str (s : string) : result Z :=
  let body := rstrip (lstrip s) in
  let v := match body with
           | String "+" r => unsigned_value r
           | String "-" r => option_map Z.opp (unsigned_value r)
           | _ => unsigned_value body
           end in
  match v with
  | Some n => Return n
  | None => Raise ValueError
  end.

(* ================================================================= *)
(** ** models/repository/__init__.py: DockerImageReference *)

Module DockerImageReference.
Import Re DockerImageReferenceParts.

(** [port] holds an [int] (the class default, or an explicit port) or
    the [str] that the pattern captured. *)
Inductive port_value : Type :=
| PortInt (n : Z)
| PortStr (s : string).

(** The [port] argument of the constructor: [Union[None, str, int]]. *)
Inductive port_arg : Type :=
| NoPort
| StrPort (s : string)
| IntPort (n : Z).

(** Attributes of an instance; [name] has no class default, so it is
    unset until assigned. *)
Record t : Type := mk {
  host : option string;
  port : port_value;
  name : option string;
  tag : option string;
  digest : option string
}.

Definition class_defaults : t := mk None (PortInt 443) None None None.

(** [self.port != 443]: a [str] never equals an [int]. *)
Definition port_is_not_443 (p : port_value) : bool :=
  match p with
  | PortInt n => negb (n =? 443)%Z
  | PortStr _ => true
  end.

Definition format_port (p : port_value) : string :=
  match p with
  | PortInt n => str_of_int n
  | PortStr s => s
  end.

(** The [_image] property. *)
Definition _image (self : t) : result string :=
  match name self with
  | None => Raise AttributeError
  | Some image =>
      let image :=
        match host self with
        | Some host =>
            let host := if port_is_not_443 (port self)
                        then host ++ ":" ++ format_port (port self)
                        else host in
            host ++ "/" ++ image
        | None => image
        end in
      let image :=
        match tag self, digest self with
        | Some tag, _ => image ++ ":" ++ tag
        | None, Some digest => image ++ "@" ++ digest
        | None, None => image
        end in
      Return image
  end.

(** The [_image] setter: [match] is [None] when the pattern does not
    match, and [match.groupdict()] then raises. *)
Definition set__image (self : t) (image : string) : result t :=
  match re_match image_pattern image with
  | None => Raise AttributeError
  | Some m =>
      let port := match group m "port" with
                  | None => PortInt 443
                  | Some p => PortStr p
                  end in
      Return (mk (group m "host") port (group m "name")
                 (group m "tag") (group m "digest"))
  end.

Definition set_host (self : t) (v : option string) : t :=
  mk v (port self) (name self) (tag self) (digest self).
Definition set_port (self : t) (v : port_value) : t :=
  mk (host self) v (name self) (tag self) (digest self).
Definition set_name (self : t) (v : option string) : t :=
  mk (host self) (port self) v (tag self) (digest self).
Definition set_tag (self : t) (v : option string) : t :=
  mk (host self) (port self) (name self) v (digest self).
Definition set_digest (self : t) (v : option string) : t :=
  mk (host self) (port self) (name self) (tag self) v.

(** [if v is not None: self.attr = v] *)
Definition assign_if_set (set : t -> option string -> t) (self : t)
           (v : option string) : t :=
  match v with
  | Some _ => set self v
  | None => self
  end.

Definition __init__ (image_str host_ : option string) (port_ : port_arg)
           (name_ tag_ digest_ : option string) : result t :=
  mutually_exclusive [("tag", tag_); ("digest", digest_)] ;;;
  one_required [("image_str", image_str); ("name", name_)] ;;;
  self <- match image_str with
          | Some image => set__image class_defaults image
          | None => Return class_defaults
          end ;;
  let self := assign_if_set set_host self host_ in
  self <- match port_ with
          | StrPort p => n <- int_of_str p ;; Return (set_port self (PortInt n))
          | IntPort n => Return (set_port self (PortInt n))
          | NoPort => Return self
          end ;;
  let self := assign_if_set set_name self name_ in
  let self := assign_if_set set_tag self tag_ in
  let self := assign_if_set set_digest self digest_ in
  Return self.

(** [DockerImageReference(image_str)] *)
Definition parse (image_str : string) : result t :=
  __init__ (Some image_str) None NoPort None None None.


(** [__str__] *)
Definition __str__ (self : t) : result string := _image self.

(** [__repr__]: [f"DockerImageReference('{str(self)}')"] *)
Definition __repr__ (self : t) : result string :=
  text <- __str__ self ;;
  Return ("DockerImageReference('" ++ text ++ "')").

End DockerImageReference.

(* ================================================================= *)
(** ** Decoded JSON values *)

(** What a decoded token payload is made of.  JSON numbers are kept as
    integers; no check below looks inside a number. *)
#[warnings="-register-all"]
Inductive pyval : Type :=
| VNone
| VBool (b : bool)
| VInt (n : Z)
| VStr (s : string)
| VList (l : list pyval)
| VDict (d : list (string * pyval)).

Definition is_str (v : pyval) : bool :=
  match v with VStr _ => true | _ => false end.
Definition is_list (v : pyval) : bool :=
  match v with VList _ => true | _ => false end.
Definition is_dict (v : pyval) : bool :=
  match v with VDict _ => true | _ => false end.

(** [v == s] for a [str] [s]. *)
Definition eq_str (v : pyval) (s : string) : bool :=
  match v with
  | VStr s' => String.eqb s' s
  | _ => false
  end.

(** [v[k]] for a [str] key: a lookup on a dict; a [str] or [list] takes
    integer indices only, and the other values are not subscriptable. *)
Definition subscript (v : pyval) (k : string) : result pyval :=
  match v with
  | VDict d => getitem d k
  | _ => Raise TypeError
  end.

(** [sub in s] *)
Fixpoint is_substring (sub s : string) : bool :=
  (startswith s sub ||
   match s with
   | EmptyString => false
   | String _ s' => is_substring sub s'
   end)%bool.

(** [x in v] for a [str] [x]: membership in a list, key of a dict,
    substring of a str. *)
Definition contains (v : pyval) (x : string) : result bool :=
  match v with
  | VList l => Return (existsb (fun y => eq_str y x) l)
  | VDict d => Return (existsb (fun kv => String.eqb (fst kv) x) d)
  | VStr s => Return (is_substring x s)
  | _ => Raise TypeError
  end.

(** [for x in xs: body(x)], stopping at the first exception. *)
Fixpoint for_each {A : Type} (body : A -> result unit) (xs : list A)
  : result unit :=
  match xs with
  | [] => Return tt
  | x :: xs' => body x ;;; for_each body xs'
  end.

(* ================================================================= *)
(** ** models/auth.py *)

(** [list(ResourceType)] and [list(ResourceAction)]: str-valued enums,
    whose members compare equal to their values. *)
Definition ResourceType : list string := ["registry"; "repository"].
Definition ResourceAction : list string := ["push"; "pull"; "list"].

Definition str_in (x : string) (l : list string) : bool :=
  existsb (String.eqb x) l.

(* ================================================================= *)
(** ** auth/validate.py *)

Module Validate.

Definition claims : Type := list (string * pyval).

Section WithJose.

(** [jwt.decode(token, SECRET_KEY, algorithms=[ALGORITHM],
    audience=AUDIENCE, issuer=ISSUER)] of python-jose: the decoded
    claims, or one of the library's exceptions
    ([Jose ExpiredSignatureError] for a token past its expiration,
    [Jose JWTError] for a signature that does not verify,
    [Jose JWTClaimsError] for a wrong issuer or audience). *)
Variable jwt_decode : string -> result claims.

(** Only [ExpiredSignatureError] is caught. *)
Definition get_token_data (encoded_token : string)
  : result (option claims) :=
  match jwt_decode encoded_token with
  | Return token_data => Return (Some token_data)
  | Raise (Jose ExpiredSignatureError) => Return None
  | Raise e => Raise e
  end.

Definition ThrupleStr : Type := (string * string * string)%type.

(** [scope_is_allowed(scope: ThrupleStr, access)] *)
Fixpoint scope_is_allowed (scope : ThrupleStr) (access : list pyval)
  : result bool :=
  let '(type_, name, action) := scope in
  match access with
  | [] => Return false
  | access_scope :: rest =>
      t <- subscript access_scope "type" ;;
      if eq_str t type_ then
        n <- subscript access_scope "name" ;;
        if eq_str n name then
          actions <- subscript access_scope "actions" ;;
          found <- contains actions action ;;
          if found then Return true else scope_is_allowed scope rest
        else scope_is_allowed scope rest
      else scope_is_allowed scope rest
  end.

(** [scope_is_allowed(scope: ThrupleStrL, access)] *)
Fixpoint scope_is_allowed_list (scope : list ThrupleStr)
         (access : list pyval) : result bool :=
  match scope with
  | [] => Return true
  | scope_ :: rest =>
      ok <- scope_is_allowed scope_ access ;;
      if negb ok then Return false else scope_is_allowed_list rest access
  end.

(** The requested scope, by the overload it selects. *)
Inductive ThrupleStrU : Type :=
| One (scope : ThrupleStr)
| Many (scope : list ThrupleStr).

Definition scope_is_allowed_u (scope : ThrupleStrU) (access : list pyval)
  : result bool :=
  match scope with
  | One sc => scope_is_allowed sc access
  | Many scs => scope_is_allowed_list scs access
  end.

(** The body of the [try] block of [validate_token_data(data: dict)]. *)
Definition check_action (action : pyval) : result unit :=
  py_assert (is_str action) ;;;
  py_assert (match action with
             | VStr a => str_in a ResourceAction
             | _ => false
             end).

Definition check_scope (scope : pyval) : result unit :=
  py_assert (is_dict scope) ;;;
  type_ <- subscript scope "type" ;;
  py_assert (is_str type_) ;;;
  py_assert (match type_ with
             | VStr t => str_in t ResourceType
             | _ => false
             end) ;;;
  name <- subscript scope "name" ;;
  py_assert (is_str name) ;;;
  actions <- subscript scope "actions" ;;
  py_assert (is_list actions) ;;;
  match actions with
  | VList l => for_each check_action l
  | _ => Return tt
  end.

Definition check_access (data : claims) : result unit :=
  access <- getitem data "access" ;;
  py_assert (is_list access) ;;;
  match access with
  | VList l => for_each check_scope l
  | _ => Return tt
  end.

(** [validate_token_data(data: dict)]: [VNone] is Python's [None]. *)
Definition validate_token_data_dict (data : claims) : result pyval :=
  match check_access data with
  | Return _ => Return (VDict data)
  | Raise AssertionError => Return VNone
  | Raise KeyError => Return VNone
  | Raise e => Raise e
  end.

(** [validate_token_data(data: str)] *)
Definition validate_token_data_str (data : string) : result pyval :=
  d <- get_token_data data ;;
  match d with
  | None => Return VNone
  | Some d => validate_token_data_dict d
  end.

(** [data: Union[str, dict]] *)
Inductive token : Type :=
| Encoded (data : string)
| Decoded (data : claims).

Definition validate_token_data (data : token) : result pyval :=
  match data with
  | Encoded s => validate_token_data_str s
  | Decoded d => validate_token_data_dict d
  end.

(** [validate_token_data(data, scope: ThrupleStrU)] *)
Definition validate_token_data_scope (data : token) (scope : ThrupleStrU)
  : result pyval :=
  data <- validate_token_data data ;;
  match data with
  | VNone => Return VNone
  | _ =>
      access <- subscript data "access" ;;
      match access with
      | VList l =>
          ok <- scope_is_allowed_u scope l ;;
          if ok then Return data else Return VNone
      | _ => Raise TypeError
      end
  end.

(** [s.split(sep)] for a one-character separator. *)
Fixpoint split (sep : ascii) (s : string) : list string :=
  match s with
  | EmptyString => [EmptyString]
  | String c s' =>
      if Ascii.eqb c sep then EmptyString :: split sep s'
      else match split sep s' with
           | part :: parts => String c part :: parts
           | [] => [String c EmptyString]
           end
  end.

(** One round of the loop of [validate_token_data(data, scope: str)]. *)
Definition parse_scope (scope_ : string) : result ThrupleStr :=
  let scope_parts := split ":" scope_ in
  if (length scope_parts <? 3)%nat then Raise ValueError
  else
    let type_ := hd EmptyString scope_parts in
    let name := String.concat ":" (removelast (tl scope_parts)) in
    let action := last scope_parts EmptyString in
    Return (type_, name, action).

Fixpoint parse_scopes (tokens : list string) : result (list ThrupleStr) :=
  match tokens with
  | [] => Return []
  | scope_ :: rest =>
      sc <- parse_scope scope_ ;;
      scs <- parse_scopes rest ;;
      Return (sc :: scs)
  end.


End WithJose.

End Validate.

(* ================================================================= *)
(** ** auth/generate.py *)

Module Generate.

(** [TokenAccess]: the enum-typed fields hold the enum values. *)
Record TokenAccess : Type := mkAccess {
  type : string;
  name : string;
  actions : list string
}.

(** [scope.dict()] *)
Definition TokenAccess_dict (scope : TokenAccess) : pyval :=
  VDict [("type", VStr (type scope));
         ("name", VStr (name scope));
         ("actions", VList (map VStr (actions scope)))].

Section WithDatetime.

(** The [datetime] module and the configuration are taken as given:
    naive datetimes, durations, and the operations the code calls on
    them, each of which may raise (overflow, unparsable text). *)
Variables datetime timedelta : Type.
Variable add : datetime -> timedelta -> result datetime.
Variable sub : datetime -> timedelta -> result datetime.
Variable timedelta_seconds : Z -> result timedelta.
Variable fromtimestamp : Z -> result datetime.
Variable parse_datetime : string -> result datetime.
(** [int(d.timestamp())] *)
Variable int_timestamp : datetime -> Z.

Variable DEFAULT_TOKEN_VALIDITY_PERIOD : timedelta.
Variables ISSUER AUDIENCE : string.

(** [datetime.utcnow()] reads the clock; the readings of one call are
    given in advance, the [n]-th read returning [clock n]. *)
Variable clock : nat -> datetime.

Definition io (A : Type) : Type := nat -> result (A * nat).

Definition ret {A : Type} (a : A) : io A := fun n => Return (a, n).

Definition lift {A : Type} (c : result A) : io A :=
  fun n => a <- c ;; Return (a, n).

Definition utcnow : io datetime := fun n => Return (clock n, S n).

Definition io_bind {A B : Type} (c : io A) (k : A -> io B) : io B :=
  fun n => r <- c n ;; k (fst r) (snd r).

(** [now_plus] *)
Definition now_plus (delta : timedelta) : io datetime :=
  io_bind utcnow (fun now => lift (add now delta)).

(** [expiration: Union[None, datetime, timedelta, str, int]] *)
Inductive expiration_arg : Type :=
| ExpNone
| ExpInt (n : Z)
| ExpTimedelta (d : timedelta)
| ExpStr (s : string)
| ExpDatetime (d : datetime).

(** The [if]/[elif] chain at the head of [create_token]. *)
Definition resolve_expiration (expiration : expiration_arg) : io datetime :=
  match expiration with
  | ExpNone => now_plus DEFAULT_TOKEN_VALIDITY_PERIOD
  | ExpInt n =>
      if (n <? 60 * 60 * 24 * 365)%Z
      then io_bind (lift (timedelta_seconds n)) now_plus
      else lift (fromtimestamp n)
  | ExpTimedelta d => now_plus d
  | ExpStr s => lift (parse_datetime s)
  | ExpDatetime d => ret d
  end.

Record TokenData : Type := mkTokenData {
  access : list TokenAccess;
  subject : string;
  issuer : string;
  audience : string;
  expiration : datetime;
  issued : datetime
}.

(** [create_token(subject, access, expiration)], up to the
    [TokenData] it hands to the second overload. *)
Definition create_token_data (subject_ : string)
           (access_ : list TokenAccess) (expiration_ : expiration_arg)
  : io TokenData :=
  io_bind (resolve_expiration expiration_) (fun exp =>
  io_bind utcnow (fun now =>
  ret (mkTokenData access_ subject_ ISSUER AUDIENCE exp now))).

(** [create_token(token_data)]: the claims handed to [create_jwt]. *)
Definition token_claims (token_data : TokenData) : result (list (string * pyval)) :=
  five <- timedelta_seconds 5 ;;
  not_before <- sub (issued token_data) five ;;
  Return [("iss", VStr (issuer token_data));
          ("sub", VStr (subject token_data));
          ("aud", VStr (audience token_data));
          ("exp", VInt (int_timestamp (expiration token_data)));
          ("iat", VInt (int_timestamp (issued token_data)));
          ("nbf", VInt (int_timestamp not_before));
          ("access", VList (map TokenAccess_dict (access token_data)))].

(** What [jwt.encode] is given: the claims, one of which may still be a
    [datetime]. *)
Inductive jwt_value : Type :=
| Plain (v : pyval)
| Moment (d : datetime).

(** [jwt.encode(to_encode, SECRET_KEY, algorithm=ALGORITHM)] *)
Variable jwt_encode : list (string * jwt_value) -> result string.

(** [create_jwt]: [dict.update] with a new key appends it. *)
Definition create_jwt (data : list (string * pyval))
           (expires_delta : option timedelta) : io string :=
  let to_encode := map (fun kv => (fst kv, Plain (snd kv))) data in
  let expires_delta :=
    match expires_delta with
    | None => DEFAULT_TOKEN_VALIDITY_PERIOD
    | Some delta => delta
    end in
  io_bind
    (match assoc to_encode "exp" with
     | None =>
         io_bind (now_plus expires_delta)
                 (fun exp => ret (to_encode ++ [("exp", Moment exp)])%list)
     | Some _ => ret to_encode
     end)
    (fun to_encode => lift (jwt_encode to_encode)).

(** [create_token(token_data)] *)
Definition create_token_of_data (token_data : TokenData) : io string :=
  io_bind (lift (token_claims token_data)) (fun data => create_jwt data None).

(** [create_token(subject, access, expiration)] *)
Definition create_token (subject_ : string) (access_ : list TokenAccess)
           (expiration_ : expiration_arg) : io string :=
  io_bind (create_token_data subject_ access_ expiration_) create_token_of_data.

End WithDatetime.

Arguments ExpNone {datetime timedelta}.
Arguments ExpInt {datetime timedelta} n.
Arguments ExpTimedelta {datetime timedelta} d.
Arguments ExpStr {datetime timedelta} s.
Arguments ExpDatetime {datetime timedelta} d.

End Generate.

(* ================================================================= *)
(** ** models/error.py *)

Module ErrorModel.

Inductive ErrorCode : Type :=
| BLOB_UNKNOWN
| BLOB_UPLOAD_INVALID
| BLOB_UPLOAD_UNKNOWN
| DIGEST_INVALID
| MANIFEST_BLOB_UNKNOWN
| MANIFEST_INVALID
| MANIFEST_UNKNOWN
| MANIFEST_UNVERIFIED
| NAME_INVALID
| NAME_UNKNOWN
| SIZE_INVALID
| TAG_INVALID
| UNAUTHORIZED
| DENIED
| UNSUPPORTED
| TOOMANYREQUESTS.

(** [list(ErrorCode)], in definition order. *)
Definition all_codes : list ErrorCode :=
  [BLOB_UNKNOWN; BLOB_UPLOAD_INVALID; BLOB_UPLOAD_UNKNOWN; DIGEST_INVALID;
   MANIFEST_BLOB_UNKNOWN; MANIFEST_INVALID; MANIFEST_UNKNOWN;
   MANIFEST_UNVERIFIED; NAME_INVALID; NAME_UNKNOWN; SIZE_INVALID;
   TAG_INVALID; UNAUTHORIZED; DENIED; UNSUPPORTED; TOOMANYREQUESTS].

(** [code.value]: every member's value is its own name. *)
Definition code_value (c : ErrorCode) : string :=
  match c with
  | BLOB_UNKNOWN => "BLOB_UNKNOWN"
  | BLOB_UPLOAD_INVALID => "BLOB_UPLOAD_INVALID"
  | BLOB_UPLOAD_UNKNOWN => "BLOB_UPLOAD_UNKNOWN"
  | DIGEST_INVALID => "DIGEST_INVALID"
  | MANIFEST_BLOB_UNKNOWN => "MANIFEST_BLOB_UNKNOWN"
  | MANIFEST_INVALID => "MANIFEST_INVALID"
  | MANIFEST_UNKNOWN => "MANIFEST_UNKNOWN"
  | MANIFEST_UNVERIFIED => "MANIFEST_UNVERIFIED"
  | NAME_INVALID => "NAME_INVALID"
  | NAME_UNKNOWN => "NAME_UNKNOWN"
  | SIZE_INVALID => "SIZE_INVALID"
  | TAG_INVALID => "TAG_INVALID"
  | UNAUTHORIZED => "UNAUTHORIZED"
  | DENIED => "DENIED"
  | UNSUPPORTED => "UNSUPPORTED"
  | TOOMANYREQUESTS => "TOOMANYREQUESTS"
  end.

(** [ErrorMessage]: the names of the class body with their values.
    [ErrorMessage[name]] looks a member up by name. *)
Definition ErrorMessage : list (string * string) :=
  [("BLOB_UNKNOWN", "blob unknown to registry");
   ("BLOB_UPLOAD_INVALID", "blob upload invalid");
   ("BLOB_UPLOAD_UNKNOWN", "blob upload unknown to registry");
   ("DIGEST_INVALID", "provided digest did not match uploaded content");
   ("MANIFEST_BLOB_UNKNOWN", "blob unknown to registry");
   ("MANIFEST_INVALID", "manifest invalid");
   ("MANIFEST_UNKNOWN", "manifest unknown");
   ("MANIFEST_UNVERIFIED", "manifest failed signature verification");
   ("NAME_INVALID", "invalid repository name");
   ("NAME_UNKNOWN", "repository name not known to registry");
   ("SIZE_INVALID", "provided length did not match content length");
   ("TAG_INVALID", "manifest tag did not match URI");
   ("UNAUTHORIZED", "authentication required");
   ("DENIED", "requested access to the resource is denied");
   ("UNSUPPORTED", "The operation is unsupported");
   ("TOOMANYREQUESTS", "too many requests")].

(** The [code] argument of [ExceptionMapping]: [ErrorCode | str]. *)
Inductive code_arg : Type :=
| Member (c : ErrorCode)
| Text (s : string).

(** The attributes [code] and [message] of an [ExceptionMapping]. *)
Record ExceptionMapping : Type := mkMapping {
  code : string;
  message : string
}.

(** [code not in list(ErrorCode)]: a str equals a member when it equals
    the member's value. *)
Definition is_code_value (s : string) : bool :=
  existsb (fun c => String.eqb s (code_value c)) all_codes.

(** [ExceptionMapping.__init__], as far as [code] and [message] go.  A
    plain [str] has no attribute [value]. *)
Definition __init__ (code_ : code_arg) : result ExceptionMapping :=
  (match code_ with
   | Member _ => Return tt
   | Text s => if negb (is_code_value s) then Raise ValueError else Return tt
   end) ;;;
  value <- match code_ with
           | Member c => Return (code_value c)
           | Text _ => Raise AttributeError
           end ;;
  message_ <- getitem ErrorMessage value ;;
  Return (mkMapping value message_).

End ErrorModel.

(** The pieces of a text, put together. *)
Fixpoint cat_all (ws : list string) : string :=
  match ws with
  | [] => EmptyString
  | w :: ws' => w ++ cat_all ws'
  end.

(* ================================================================= *)
(** ** What the specification asks of a decoded [access] claim *)

Module Spec.

(** A string among push, pull and list. *)
Definition action_ok (a : pyval) : bool :=
  match a with
  | VStr x => str_in x ["push"; "pull"; "list"]
  | _ => false
  end.

(** An object with a [type] among registry and repository, a string
    [name], and an [actions] sequence of such action strings. *)
Definition scope_ok (v : pyval) : bool :=
  match v with
  | VDict d =>
      match assoc d "type" with
      | Some (VStr t) => str_in t ["registry"; "repository"]
      | _ => false
      end
      && match assoc d "name" with
         | Some (VStr _) => true
         | _ => false
         end
      && match assoc d "actions" with
         | Some (VList l) => forallb action_ok l
         | _ => false
         end
  | _ => false
  end.

(** The [access] claim is present and is a sequence of such objects. *)
Definition access_ok (data : list (string * pyval)) : bool :=
  match assoc data "access" with
  | Some (VList l) => forallb scope_ok l
  | _ => false
  end.

End Spec.

(* ================================================================= *)
(** ** The reference grammar, field by field

    The fields of a reference as the grammar of the patterns builds
    them, each with its text. *)

Module Grammar.
Import Re DockerImageReferenceParts DockerImageReference.

(** A non-empty run of characters of one class. *)
Definition is_run (cl : list item) (w : string) : bool :=
  (negb (w =? "") && str_all (in_class cl) w)%bool.

(** *** Names *)

(** What may stand between two runs of a name component: a dot, an
    underscore, two underscores, or one or more dashes. *)
Inductive separator : Type :=
| Dot
| Underscore
| TwoUnderscores
| Dashes (more : nat).




Record component : Type := mkComponent {
  first_run : string;
  more_runs : list (separator * string)
}.




Record repo_name : Type := mkName {
  first_component : component;
  more_components : list component
}.






(** *** Tags *)

Definition tag_tail : list item := [WordChar; Ch "."; Ch "-"].

(** A word character, then up to 127 word characters, dots or dashes. *)
Definition valid_tag (t : string) : bool :=
  match t with
  | EmptyString => false
  | String c t' =>
      (in_class [WordChar] c && str_all (in_class tag_tail) t'
       && (String.length t' <=? 127)%nat)%bool
  end.

(** *** Digests *)

Definition hex_chars : list item := [Rng "A" "F"; Rng "a" "f"; Rng "0" "9"].


(** Words joined by single separators, a colon, and 32 or more hex
    digits. *)
Record digest_literal : Type := mkDigest {
  first_word : string;
  more_words : list (ascii * string);
  hex : string
}.





(** *** Hosts *)




(** A host: components joined by dots, or a bracketed IPv6 literal. *)
Inductive host_literal : Type :=
| HostName (first : string) (more : list string)
| IPv6 (groups : string).

Definition dotted (w : string) : string := "." ++ w.

Definition host_text (h : host_literal) : string :=
  match h with
  | HostName first more => first ++ cat_all (map dotted more)
  | IPv6 groups => "[" ++ groups ++ "]"
  end.



Definition digits : list item := [Rng "0" "9"].

(** *** Whole references *)

(** What may follow the name: nothing, a tag, or a digest. *)
Inductive qualifier : Type :=
| Untagged
| Tagged (t : string)
| Pinned (d : digest_literal).





Definition port_text (p : option string) : string :=
  match p with
  | Some digits => ":" ++ digits
  | None => ""
  end.

(** The explicit fields of a reference, each as the grammar builds it. *)
Record fields : Type := mkFields {
  f_host : option host_literal;
  f_port : option Z;
  f_name : repo_name;
  f_qualifier : qualifier
}.




(** The port that the text carries: none when the host is unset or the
    port is 443 or was not given. *)
Definition written_port (f : fields) : option string :=
  match f_host f, f_port f with
  | Some _, Some n => if (n =? 443)%Z then None else Some (str_of_int n)
  | _, _ => None
  end.

Definition registry_text (f : fields) : string :=
  match f_host f with
  | Some h => host_text h ++ port_text (written_port f) ++ "/"
  | None => ""
  end.


End Grammar.

(* ================================================================= *)
(** * Theorems *)

Module TextFacts.

Lemma append_assoc (a b c : string) : (a ++ b) ++ c = a ++ (b ++ c).
Proof. induction a as [|x a IH]; simpl; [reflexivity | now rewrite IH]. Qed.

Lemma append_nil_r (a : string) : a ++ "" = a.
Proof. induction a as [|c a IH]; simpl; [reflexivity | now rewrite IH]. Qed.

Lemma length_append (a b : string) :
  String.length (a ++ b) = String.length a + String.length b.
Proof. induction a as [|c a IH]; simpl; [reflexivity | now rewrite IH]. Qed.


End TextFacts.

Module DigestFacts.
Import ValidatedValue Digest.

Definition zeros64 : string :=
  "0000000000000000000000000000000000000000000000000000000000000000".

Lemma is_prefixed_sha256 algs h :
  is_prefixed algs ("sha256:" ++ h) = Return ("sha256:" ++ h).
Proof. reflexivity. Qed.

Lemma pop_prefix_sha256 algs h :
  _pop_prefix algs ("sha256:" ++ h) = (Some "sha256:", h).
Proof.
  reflexivity.
Qed.

(** No key of [hash_lengths] ends with a colon, so the lookup made by
    [is_correct_length] fails whatever the prefix. *)
Lemma pop_prefix_from_colon ps value p rest :
  pop_prefix_from (map (fun algo => algo ++ ":") ps) value = (Some p, rest) ->
  exists algo, p = algo ++ ":".
Proof.
  induction ps as [|a ps IH]; simpl; [discriminate|].
  destruct (startswith value (a ++ ":")).
  - intros H; injection H as <- _. now exists a.
  - exact IH.
Qed.

Lemma append_colon_not_sha256 algo : ((algo ++ ":") =? "sha256") = false.
Proof.
  apply String.eqb_neq. intros H.
  do 7 (destruct algo as [|? algo]; simpl in H; try discriminate H).
Qed.

Lemma is_correct_length_raises algs value :
  is_correct_length algs value = Raise KeyError.
Proof.
  unfold is_correct_length.
  destruct (_pop_prefix algs value) as [[p|] rest] eqn:E; [|reflexivity].
  apply pop_prefix_from_colon in E as [algo ->].
  unfold hash_lengths_getitem, getitem, hash_lengths, assoc.
  rewrite String.eqb_sym, append_colon_not_sha256. reflexivity.
Qed.

Lemma validators_in_order_raises algs h :
  str_all (fun c => char_in c hexdigits) h = true ->
  is_prefixed algs ("sha256:" ++ h) = Return ("sha256:" ++ h)
  /\ is_hex algs ("sha256:" ++ h) = Return ("sha256:" ++ h)
  /\ validators_in_order algs ("sha256:" ++ h) = Raise KeyError.
Proof.
  intros Hh.
  assert (Hhex : is_hex algs ("sha256:" ++ h) = Return ("sha256:" ++ h)).
  { unfold is_hex. rewrite pop_prefix_sha256, Hh. reflexivity. }
  split; [apply is_prefixed_sha256|]. split; [exact Hhex|].
  unfold validators_in_order.
  rewrite is_prefixed_sha256. unfold bind at 1.
  rewrite Hhex. unfold bind.
  apply is_correct_length_raises.
Qed.

(** C1.  Digest validation of a well-formed digest string does not
    return a Digest.  [validate] folds [_do_validation] with the value as
    the accumulator, so the value is what gets called: construction
    from any string raises TypeError, in particular from "sha256:"
    followed by 64 hex digits, and so does Blob.digest whatever the hash
    function returns.  The length validator raises KeyError on every
    input, because its table is keyed without the colon that the popped
    prefix carries; run in the listed order, the validators therefore
    stop with KeyError on "sha256:" followed by 64 zeros. *)
Theorem C1_digest_validation_raises :
  (forall algs s, __init__ algs (OfStr s) = Raise TypeError)
  /\ __init__ [] (OfStr ("sha256:" ++ zeros64)) = Raise TypeError
  /\ (forall algs hexdigest data,
         Blob_digest algs hexdigest "sha256" data = Raise TypeError)
  /\ (forall algs value, is_correct_length algs value = Raise KeyError)
  /\ (forall algs,
         validators_in_order algs ("sha256:" ++ zeros64) = Raise KeyError).
Proof.
  split; [reflexivity|]. split; [reflexivity|]. split; [reflexivity|].
  split; [exact is_correct_length_raises|].
  intros algs. now apply validators_in_order_raises.
Qed.

End DigestFacts.


Module ValidateFacts.
Import Validate.

(** The two exceptions that [validate_token_data] turns into [None]. *)
Definition soft (e : exn) : Prop := e = AssertionError \/ e = KeyError.

(** A check either passes where the specification's test holds, or
    stops with a soft exception where it does not. *)
Definition decides {A : Type} (check : A -> result unit) (ok : A -> bool)
  : Prop :=
  forall x,
    (check x = Return tt /\ ok x = true)
    \/ (exists e, soft e /\ check x = Raise e /\ ok x = false).

Lemma for_each_decides {A : Type} (check : A -> result unit) (ok : A -> bool) :
  decides check ok -> decides (for_each check) (forallb ok).
Proof.
  intros D l. induction l as [|x l IH]; simpl.
  - now left.
  - destruct (D x) as [[-> ->] | (e & He & -> & ->)]; simpl.
    + exact IH.
    + right. now exists e.
Qed.

Lemma check_action_decides : decides check_action Spec.action_ok.
Proof.
  intros a. unfold check_action, Spec.action_ok, soft.
  destruct a as [| | | x | |]; simpl;
    try (right; exists AssertionError; now auto).
  match goal with |- context [py_assert ?b] => destruct b end; simpl.
  - now left.
  - right. exists AssertionError. now auto.
Qed.

Lemma check_scope_decides : decides check_scope Spec.scope_ok.
Proof.
  intros v. unfold check_scope, Spec.scope_ok, soft.
  destruct v as [| | | | | d]; simpl;
    try (right; exists AssertionError; now auto).
  unfold getitem.
  destruct (assoc d "type") as [ty|]; simpl;
    [|right; exists KeyError; now auto].
  destruct ty as [| | | t | |]; simpl;
    try (right; exists AssertionError; now auto).
  match goal with |- context [py_assert ?b] => destruct b end; simpl;
    [|right; exists AssertionError; now auto].
  destruct (assoc d "name") as [nm|]; simpl;
    [|right; exists KeyError; now auto].
  destruct nm as [| | | n | |]; simpl;
    try (right; exists AssertionError; now auto).
  destruct (assoc d "actions") as [acts|]; simpl;
    [|right; exists KeyError; now auto].
  destruct acts as [| | | | l |]; simpl;
    try (right; exists AssertionError; now auto).
  exact (for_each_decides check_action_decides l).
Qed.

Lemma check_access_decides : decides check_access Spec.access_ok.
Proof.
  intros data. unfold check_access, Spec.access_ok, getitem, soft.
  destruct (assoc data "access") as [acc|]; simpl;
    [|right; exists KeyError; now auto].
  destruct acc as [| | | | l |]; simpl;
    try (right; exists AssertionError; now auto).
  exact (for_each_decides check_scope_decides l).
Qed.

Lemma validate_dict_ok data :
  Spec.access_ok data = true ->
  validate_token_data_dict data = Return (VDict data).
Proof.
  intros H. unfold validate_token_data_dict.
  destruct (check_access_decides data) as [[-> _] | (e & _ & _ & E)];
    [reflexivity | congruence].
Qed.

Lemma validate_dict_bad data :
  Spec.access_ok data = false ->
  validate_token_data_dict data = Return VNone.
Proof.
  intros H. unfold validate_token_data_dict.
  destruct (check_access_decides data) as [[_ E] | (e & [-> | ->] & -> & _)];
    [congruence | reflexivity | reflexivity].
Qed.

(** *** Sample token and decoder *)

Definition nginx_pull : pyval :=
  VDict [("type", VStr "repository");
         ("name", VStr "library/nginx");
         ("actions", VList [VStr "pull"])].

Definition alice_claims : claims :=
  [("iss", VStr "mock-registry");
   ("sub", VStr "alice");
   ("aud", VStr "mock-registry");
   ("exp", VInt 1700000300);
   ("iat", VInt 1700000000);
   ("nbf", VInt 1699999995);
   ("access", VList [nginx_pull])].

(** A decoder that knows one valid token and one expired token, and
    finds the signature of every other text wrong. *)
Definition sample_decode (encoded_token : string) : result claims :=
  if encoded_token =? "alice.token" then Return alice_claims
  else if encoded_token =? "alice.expired"
       then Raise (Jose ExpiredSignatureError)
       else Raise (Jose JWTError).

(** *** Step 1: what the decoder raises *)

Lemma get_token_data_expired decode tok :
  decode tok = Raise (Jose ExpiredSignatureError) ->
  get_token_data decode tok = Return None.
Proof. intros H. unfold get_token_data. now rewrite H. Qed.

Lemma get_token_data_raises decode tok e :
  decode tok = Raise e ->
  e <> Jose ExpiredSignatureError ->
  get_token_data decode tok = Raise e.
Proof.
  intros H Hne. unfold get_token_data. rewrite H.
  destruct e as [| | | | | []]; congruence.
Qed.

(** C2, as the code has it.  When the decoder raises, token validation
    gives the soft invalid result exactly for ExpiredSignatureError;
    every other exception of the decoder (a signature that does not
    verify, a wrong issuer or audience) leaves every overload as the
    exception itself. *)
Theorem C2_only_expiry_is_soft
        (decode : string -> result claims) (tok : string) (e : exn)
        (H : decode tok = Raise e) :
  (e = Jose ExpiredSignatureError ->
     get_token_data decode tok = Return None
     /\ validate_token_data decode (Encoded tok) = Return VNone
     /\ (forall scope,
           validate_token_data_scope decode (Encoded tok) scope = Return VNone))
  /\ (e <> Jose ExpiredSignatureError ->
        get_token_data decode tok = Raise e
        /\ validate_token_data decode (Encoded tok) = Raise e
        /\ (forall scope,
              validate_token_data_scope decode (Encoded tok) scope = Raise e)).
Proof.
  split.
  - intros ->.
    assert (G := get_token_data_expired decode tok H).
    assert (V : validate_token_data decode (Encoded tok) = Return VNone).
    { simpl. unfold validate_token_data_str. now rewrite G. }
    repeat split; auto.
    intros scope. unfold validate_token_data_scope. now rewrite V.
  - intros Hne.
    assert (G := get_token_data_raises decode tok H Hne).
    assert (V : validate_token_data decode (Encoded tok) = Raise e).
    { simpl. unfold validate_token_data_str. now rewrite G. }
    repeat split; auto.
    intros scope. unfold validate_token_data_scope. now rewrite V.
Qed.

Lemma C2_only_expiry_is_soft_witness :
  sample_decode "alice.expired" = Raise (Jose ExpiredSignatureError)
  /\ validate_token_data sample_decode (Encoded "alice.expired") = Return VNone.
Proof.
  split; [reflexivity|].
  apply (C2_only_expiry_is_soft sample_decode "alice.expired"
           (e := Jose ExpiredSignatureError)); reflexivity.
Defined.

(** C2 as stated fails: a token whose signature does not verify makes
    validation raise the decoder's JWTError. *)
Lemma C2_bad_signature_raises :
  sample_decode "alice.tokem" = Raise (Jose JWTError)
  /\ validate_token_data sample_decode (Encoded "alice.tokem")
     = Raise (Jose JWTError)
  /\ validate_token_data sample_decode (Encoded "alice.tokem")
     <> Return VNone.
Proof.
  split; [reflexivity|]. split; [reflexivity|]. discriminate.
Qed.

(** *** Step 2: the shape of [access] *)

Lemma access_ok_lookup data :
  Spec.access_ok data = true ->
  exists l, assoc data "access" = Some (VList l)
            /\ forallb Spec.scope_ok l = true.
Proof.
  unfold Spec.access_ok.
  destruct (assoc data "access") as [[| | | | l |]|]; try discriminate.
  intros H. now exists l.
Qed.

Lemma validate_dict_cases data :
  validate_token_data_dict data
  = if Spec.access_ok data then Return (VDict data) else Return VNone.
Proof.
  destruct (Spec.access_ok data) eqn:E.
  - now apply validate_dict_ok.
  - now apply validate_dict_bad.
Qed.





(** *** Step 3: the scope check *)

Lemma validate_scope_unfold decode tok scope d l :
  validate_token_data decode tok = Return (VDict d) ->
  assoc d "access" = Some (VList l) ->
  validate_token_data_scope decode tok scope
  = (ok <- scope_is_allowed_u scope l ;;
     if ok then Return (VDict d) else Return VNone).
Proof.
  intros V A. unfold validate_token_data_scope. rewrite V. simpl.
  unfold getitem. rewrite A. reflexivity.
Qed.







(** *** The scope authorizer *)

(** A grant entry as the authorizer reads it: a dict with the three
    keys, [actions] holding a list. *)
Definition well_shaped (v : pyval) : Prop :=
  exists d ty nm l,
    v = VDict d
    /\ assoc d "type" = Some ty
    /\ assoc d "name" = Some nm
    /\ assoc d "actions" = Some (VList l).

(** The entry [v] grants [action] on the resource [type_], [name]. *)
Definition grants (type_ name action : string) (v : pyval) : Prop :=
  exists d l,
    v = VDict d
    /\ assoc d "type" = Some (VStr type_)
    /\ assoc d "name" = Some (VStr name)
    /\ assoc d "actions" = Some (VList l)
    /\ In (VStr action) l.

Lemma eq_str_true v s : eq_str v s = true <-> v = VStr s.
Proof.
  destruct v; simpl; try (split; [discriminate | congruence]).
  rewrite String.eqb_eq. split; congruence.
Qed.

Lemma existsb_eq_str l a :
  existsb (fun y => eq_str y a) l = true <-> In (VStr a) l.
Proof.
  rewrite existsb_exists. split.
  - intros (y & Hin & Hy). apply eq_str_true in Hy. now subst.
  - intros Hin. exists (VStr a). split; [exact Hin|]. now apply eq_str_true.
Qed.

(** What one round of the loop decides on a well-shaped entry. *)
Definition entry_allows (type_ name action : string) (v : pyval) : bool :=
  match v with
  | VDict d =>
      match assoc d "type", assoc d "name", assoc d "actions" with
      | Some ty, Some nm, Some (VList l) =>
          eq_str ty type_ && eq_str nm name
          && existsb (fun y => eq_str y action) l
      | _, _, _ => false
      end
  | _ => false
  end.

Lemma entry_allows_grants type_ name action v :
  entry_allows type_ name action v = true <-> grants type_ name action v.
Proof.
  unfold entry_allows, grants. split.
  - destruct v as [| | | | | d]; try discriminate.
    destruct (assoc d "type") as [ty|] eqn:Et; try discriminate.
    destruct (assoc d "name") as [nm|] eqn:En; try discriminate.
    destruct (assoc d "actions") as [[| | | | l |]|] eqn:Ea; try discriminate.
    intros H. apply andb_prop in H as [H H3]. apply andb_prop in H as [H1 H2].
    apply eq_str_true in H1, H2. apply existsb_eq_str in H3. subst.
    now exists d, l.
  - intros (d & l & -> & -> & -> & -> & Hin).
    simpl. rewrite !String.eqb_refl. simpl. now apply existsb_eq_str.
Qed.

Lemma scope_is_allowed_total type_ name action access :
  Forall well_shaped access ->
  scope_is_allowed (type_, name, action) access
  = Return (existsb (entry_allows type_ name action) access).
Proof.
  induction 1 as [|v access (d & ty & nm & l & -> & Ht & Hn & Ha) _ IH].
  - reflexivity.
  - simpl. unfold getitem. rewrite Ht, Hn, Ha. simpl.
    destruct (eq_str ty type_); simpl; [|exact IH].
    destruct (eq_str nm name); simpl; [|exact IH].
    destruct (existsb (fun y => eq_str y action) l); simpl;
      [reflexivity | exact IH].
Qed.

Lemma scope_is_allowed_list_total scopes access :
  Forall well_shaped access ->
  scope_is_allowed_list scopes access
  = Return (forallb (fun sc => let '(t, n, a) := sc in
                               existsb (entry_allows t n a) access) scopes).
Proof.
  intros W. induction scopes as [|[[t n] a] scopes IH]; [reflexivity|].
  simpl. rewrite (scope_is_allowed_total t n a W). simpl.
  destruct (existsb (entry_allows t n a) access); simpl;
    [exact IH | reflexivity].
Qed.

(** On a grant list of well-shaped entries the authorizer always
    answers, and allows a requested triple exactly when some entry
    grants it; a sequence of requests is allowed exactly when each one
    is. *)
Lemma scope_is_allowed_well_shaped
      (access : list pyval) (Hshape : Forall well_shaped access) :
  (forall type_ name action,
      exists b,
        scope_is_allowed (type_, name, action) access = Return b
        /\ (b = true <-> Exists (grants type_ name action) access))
  /\ (forall scopes,
        exists b,
          scope_is_allowed_list scopes access = Return b
          /\ (b = true <->
              Forall (fun sc => scope_is_allowed sc access = Return true)
                     scopes)).
Proof.
  split.
  - intros t n a. eexists. split; [now apply scope_is_allowed_total|].
    rewrite existsb_exists, Exists_exists.
    split; intros (v & Hin & Hv); exists v; split; auto;
      now apply entry_allows_grants.
  - intros scopes. eexists.
    split; [now apply scope_is_allowed_list_total|].
    rewrite forallb_forall, Forall_forall.
    split; intros H [[t n] a] Hin; specialize (H _ Hin); simpl in H.
    + rewrite (scope_is_allowed_total t n a Hshape). now rewrite H.
    + rewrite (scope_is_allowed_total t n a Hshape) in H. congruence.
Qed.

(** The grant list of a token, as [TokenAccess] entries. *)
Definition encode (granted : list Generate.TokenAccess) : list pyval :=
  map Generate.TokenAccess_dict granted.

Lemma encode_well_shaped granted : Forall well_shaped (encode granted).
Proof.
  apply Forall_forall. intros v Hin. apply in_map_iff in Hin as (g & <- & _).
  exists [("type", VStr (Generate.type g)); ("name", VStr (Generate.name g));
          ("actions", VList (map VStr (Generate.actions g)))],
    (VStr (Generate.type g)), (VStr (Generate.name g)),
    (map VStr (Generate.actions g)).
  repeat split.
Qed.

Lemma grants_encoded type_ name action g :
  grants type_ name action (Generate.TokenAccess_dict g)
  <-> Generate.type g = type_ /\ Generate.name g = name
      /\ In action (Generate.actions g).
Proof.
  unfold grants, Generate.TokenAccess_dict. split.
  - intros (d & l & E & Ht & Hn & Ha & Hin). injection E as <-.
    simpl in Ht, Hn, Ha. injection Ht as <-. injection Hn as <-.
    injection Ha as <-.
    apply in_map_iff in Hin as (a & E & Hin). injection E as ->. auto.
  - intros (<- & <- & Hin). eexists. eexists.
    repeat split. apply in_map_iff. now exists action.
Qed.

(** C6.  For every grant list and every requested triple the authorizer
    answers, and the answer is true exactly when some entry of the list
    has the requested type, the requested name and the requested action
    among its actions; for a sequence of requests it answers true
    exactly when it does for each of them. *)
Theorem C6_scope_is_allowed_iff (granted : list Generate.TokenAccess) :
  (forall type_ name action,
      exists b,
        scope_is_allowed (type_, name, action) (encode granted) = Return b
        /\ (b = true <->
            exists g, In g granted
                      /\ Generate.type g = type_
                      /\ Generate.name g = name
                      /\ In action (Generate.actions g)))
  /\ (forall scopes,
        exists b,
          scope_is_allowed_list scopes (encode granted) = Return b
          /\ (b = true <->
              forall sc, In sc scopes ->
                         scope_is_allowed sc (encode granted) = Return true)).
Proof.
  destruct (scope_is_allowed_well_shaped (encode_well_shaped granted))
    as [One_ Many_].
  split.
  - intros t n a. destruct (One_ t n a) as (b & E & Hb).
    exists b. split; [exact E|]. rewrite Hb, Exists_exists. unfold encode.
    split.
    + intros (v & Hin & Hv). apply in_map_iff in Hin as (g & <- & Hin).
      exists g. split; [exact Hin|]. now apply grants_encoded.
    + intros (g & Hin & Hg). exists (Generate.TokenAccess_dict g).
      split; [now apply in_map | now apply grants_encoded].
  - intros scopes. destruct (Many_ scopes) as (b & E & Hb).
    exists b. split; [exact E|]. now rewrite Hb, Forall_forall.
Qed.

Definition foo_pull_push : pyval :=
  VDict [("type", VStr "repository");
         ("name", VStr "foo");
         ("actions", VList [VStr "pull"; VStr "push"])].

Example scope_matching :
  scope_is_allowed ("repository", "foo", "pull") [foo_pull_push] = Return true
  /\ scope_is_allowed ("repository", "foo", "list") [foo_pull_push] = Return false
  /\ scope_is_allowed ("repository", "bar", "pull") [foo_pull_push] = Return false.
Proof. repeat split. Qed.

End ValidateFacts.

Module ScopeStringFacts.
Import Validate TextFacts.






















Example scope_string_examples :
  parse_scope "repository:library/nginx:pull"
  = Return ("repository", "library/nginx", "pull")
  /\ parse_scope "repository:a:b:pull" = Return ("repository", "a:b", "pull")
  /\ parse_scope "bad" = Raise ValueError
  /\ parse_scopes (split " " "") = Raise ValueError.
Proof. repeat split. Qed.

End ScopeStringFacts.

Module GenerateFacts.
Import Generate.

Section Resolution.

Variables datetime timedelta : Type.
Variable add : datetime -> timedelta -> result datetime.
Variable sub : datetime -> timedelta -> result datetime.
Variable timedelta_seconds : Z -> result timedelta.
Variable fromtimestamp : Z -> result datetime.
Variable parse_datetime : string -> result datetime.
Variable int_timestamp : datetime -> Z.
Variable DEFAULT_TOKEN_VALIDITY_PERIOD : timedelta.
Variables ISSUER AUDIENCE : string.
Variable clock : nat -> datetime.






End Resolution.

(** A clock and a [datetime] module over whole seconds in UTC, for the
    examples: the clock starts at 1,700,000,000 and advances one second
    per reading. *)
Definition utc_add (d delta : Z) : result Z := Return (d + delta)%Z.
Definition utc_sub (d delta : Z) : result Z := Return (d - delta)%Z.
Definition utc_seconds (k : Z) : result Z := Return k.
Definition utc_clock (n : nat) : Z := (1700000000 + Z.of_nat n)%Z.


End GenerateFacts.

(* ----------------------------------------------------------------- *)
(** ** The matcher: where a match can end and what it can capture *)

Module ReFacts.
Import Re TextFacts.

(** The group names that occur in a pattern. *)
Fixpoint names (r : regex) : list string :=
  match r with
  | Class _ | Eol => []
  | Cat r1 r2 | Alt r1 r2 => (names r1 ++ names r2)%list
  | Repeat r' _ _ => names r'
  | Group name r' => name :: names r'
  | IfGroup _ yes no => (names yes ++ names no)%list
  end.

(** [k] is reached from [s] with captures [e] through groups among
    [ns]: on a suffix of [s], with captures added in front of [e]. *)
Definition reaches (ns : list string) (s : string) (e : env) (k : cont)
           (m : env) : Prop :=
  exists prefix s' new,
    s = prefix ++ s'
    /\ k s' (new ++ e)%list = Some m
    /\ incl (map fst new) ns.

Lemma reaches_here ns s e k m : k s e = Some m -> reaches ns s e k m.
Proof.
  intros H. exists "", s, []. repeat split; auto. intros x [].
Qed.

Lemma reaches_incl ns ns' s e k m :
  incl ns ns' -> reaches ns s e k m -> reaches ns' s e k m.
Proof.
  intros I (p & s' & new & -> & H & Hn).
  exists p, s', new. repeat split; auto.
  intros x Hx. auto.
Qed.

Lemma reaches_trans ns1 ns2 s e k k1 m :
  reaches ns1 s e k1 m ->
  (forall s1 e1, k1 s1 e1 = Some m -> reaches ns2 s1 e1 k m) ->
  reaches (ns1 ++ ns2) s e k m.
Proof.
  intros (p & s1 & new & -> & H & Hn) Hk.
  destruct (Hk _ _ H) as (p' & s2 & new' & -> & H' & Hn').
  exists (p ++ p'), s2, (new' ++ new)%list.
  split; [now rewrite append_assoc|].
  split; [now rewrite <- app_assoc|].
  rewrite map_app. intros x Hx. apply in_app_or in Hx as [Hx | Hx];
    apply in_or_app; auto.
Qed.

Section Repetition.

Variable body : string -> env -> cont -> option env.
Variable ns : list string.
Hypothesis body_sound :
  forall s e k m, body s e k = Some m -> reaches ns s e k m.

Lemma rep_sound k budget :
  forall lo hi s e m,
    rep body k budget lo hi s e = Some m -> reaches ns s e k m.
Proof.
  induction budget as [|budget IH]; intros lo hi s e m H.
  - simpl in H. destruct (lo =? 0)%nat; [|discriminate].
    now apply reaches_here.
  - assert (Stop : (if (lo =? 0)%nat then k s e else None) = Some m ->
                   reaches ns s e k m).
    { destruct (lo =? 0)%nat; [|discriminate]. apply reaches_here. }
    simpl in H.
    destruct hi as [[|hi]|]; auto.
    + destruct (body s e _) as [m'|] eqn:B; auto.
      injection H as ->. apply body_sound in B.
      destruct B as (p & s1 & new & -> & B & Hn).
      destruct (_ && _)%bool; [discriminate|].
      apply IH in B. destruct B as (p' & s2 & new' & -> & B & Hn').
      exists (p ++ p'), s2, (new' ++ new)%list.
      split; [now rewrite append_assoc|].
      split; [now rewrite <- app_assoc|].
      rewrite map_app. intros x Hx. apply in_app_or in Hx as [Hx | Hx]; auto.
    + destruct (body s e _) as [m'|] eqn:B; auto.
      injection H as ->. apply body_sound in B.
      destruct B as (p & s1 & new & -> & B & Hn).
      destruct (_ && _)%bool; [discriminate|].
      apply IH in B. destruct B as (p' & s2 & new' & -> & B & Hn').
      exists (p ++ p'), s2, (new' ++ new)%list.
      split; [now rewrite append_assoc|].
      split; [now rewrite <- app_assoc|].
      rewrite map_app. intros x Hx. apply in_app_or in Hx as [Hx | Hx]; auto.
Qed.

End Repetition.

(** Whatever [run] returns, the continuation returned it: on a suffix
    of the text, with no captures other than the pattern's groups. *)
Theorem run_sound r :
  forall s e k m, run r s e k = Some m -> reaches (names r) s e k m.
Proof.
  induction r as [cl | r1 IH1 r2 IH2 | r1 IH1 r2 IH2 | r IH lo hi
                  | name r IH | name yes IHy no IHn |];
    intros s e k m H; simpl in H.
  - destruct s as [|c s']; [discriminate|].
    destruct (in_class cl c); [|discriminate].
    exists (String c ""), s', []. repeat split; auto. intros x [].
  - apply IH1 in H. eapply reaches_trans; [exact H|].
    intros s1 e1 H1. now apply IH2.
  - simpl. destruct (run r1 s e k) as [m'|] eqn:E.
    + injection H as ->. apply IH1 in E.
      eapply reaches_incl; [|exact E]. now apply incl_appl.
    + apply IH2 in H. eapply reaches_incl; [|exact H]. now apply incl_appr.
  - eapply rep_sound; [|exact H]. exact IH.
  - apply IH in H. destruct H as (p & s' & new & -> & H & Hn).
    exists p, s', ((name, take (String.length (p ++ s') - String.length s') (p ++ s')) :: new)%list.
    repeat split; auto.
    simpl. intros x [<- | Hx]; [now left | right; auto].
  - simpl. destruct (assoc e name).
    + apply IHy in H. eapply reaches_incl; [|exact H]. now apply incl_appl.
    + apply IHn in H. eapply reaches_incl; [|exact H]. now apply incl_appr.
  - destruct (at_eol s); [|discriminate]. now apply reaches_here.
Qed.

(** *** The budget of a repetition is never what stops it *)

(** Two continuations that agree on every text no longer than [s]. *)
Definition agree (s : string) (k k' : cont) : Prop :=
  forall s' e', String.length s' <= String.length s -> k s' e' = k' s' e'.

Section RepetitionBudget.

Variable body : string -> env -> cont -> option env.
Hypothesis body_ext :
  forall s e k k', agree s k k' -> body s e k = body s e k'.

Lemma rep_ext budget :
  forall lo hi s e k k',
    agree s k k' ->
    rep body k budget lo hi s e = rep body k' budget lo hi s e.
Proof.
  induction budget as [|budget IH]; intros lo hi s e k k' A.
  - simpl. now rewrite (A s e (Nat.le_refl _)).
  - cbn [rep]. rewrite (A s e (Nat.le_refl _)).
    assert (B : body s e
                  (fun s' e' =>
                     if ((lo =? 0)%nat && (String.length s' =? String.length s)%nat)%bool
                     then None
                     else rep body k budget (pred lo) (option_map pred hi) s' e')
                = body s e
                    (fun s' e' =>
                       if ((lo =? 0)%nat && (String.length s' =? String.length s)%nat)%bool
                       then None
                       else rep body k' budget (pred lo) (option_map pred hi) s' e')).
    { apply body_ext. intros s' e' L.
      destruct (_ && _)%bool; [reflexivity|].
      apply IH. intros s'' e'' L'. apply A. lia. }
    now rewrite B.
Qed.

Lemma rep_budget budget :
  forall lo hi s e k,
    lo + String.length s < budget ->
    rep body k budget lo hi s e = rep body k (S budget) lo hi s e.
Proof.
  induction budget as [|budget IH]; intros lo hi s e k Hb; [lia|].
  cbn [rep].
  assert (B : body s e
                (fun s' e' =>
                   if ((lo =? 0)%nat && (String.length s' =? String.length s)%nat)%bool
                   then None
                   else rep body k budget (pred lo) (option_map pred hi) s' e')
              = body s e
                  (fun s' e' =>
                     if ((lo =? 0)%nat && (String.length s' =? String.length s)%nat)%bool
                     then None
                     else rep body k (S budget) (pred lo) (option_map pred hi) s' e')).
  { apply body_ext. intros s' e' L.
    destruct ((lo =? 0)%nat && (String.length s' =? String.length s)%nat)%bool
      eqn:C; [reflexivity|].
    apply IH. apply andb_false_iff in C as [C | C].
    - apply Nat.eqb_neq in C. lia.
    - apply Nat.eqb_neq in C. lia. }
  destruct hi as [[|h]|]; auto; now rewrite B.
Qed.

End RepetitionBudget.

Theorem run_ext r :
  forall s e k k', agree s k k' -> run r s e k = run r s e k'.
Proof.
  induction r as [cl | r1 IH1 r2 IH2 | r1 IH1 r2 IH2 | r IH lo hi
                  | name r IH | name yes IHy no IHn |];
    intros s e k k' A; cbn [run].
  - destruct s as [|c s']; [reflexivity|].
    destruct (in_class cl c); [|reflexivity]. apply A. simpl. lia.
  - apply IH1. intros s1 e1 L. apply IH2.
    intros s2 e2 L'. apply A. lia.
  - now rewrite (IH1 s e k k' A), (IH2 s e k k' A).
  - apply rep_ext; [exact IH | exact A].
  - apply IH. intros s' e' L. now apply A.
  - destruct (assoc e name); [now apply IHy | now apply IHn].
  - destruct (at_eol s); [|reflexivity]. apply A. lia.
Qed.

(** The matcher gives a repetition a budget of [lo + length s + 1]
    iterations; any larger budget gives the same result, so the budget
    never cuts a repetition short. *)
Theorem budget_suffices r lo hi s e k extra :
  run (Repeat r lo hi) s e k
  = rep (run r) k (lo + String.length s + 1 + extra) lo hi s e.
Proof.
  cbn [run]. induction extra as [|extra IH].
  - f_equal. lia.
  - rewrite IH.
    replace (lo + String.length s + 1 + S extra)
      with (S (lo + String.length s + 1 + extra)) by lia.
    apply rep_budget; [exact (run_ext r) | lia].
Qed.

End ReFacts.

(* ----------------------------------------------------------------- *)
(** ** Image references: tag and digest *)

Module ExclusivityFacts.
Import Re ReFacts DockerImageReferenceParts DockerImageReference.

Lemma assoc_absent {V : Type} (d : list (string * V)) k :
  ~ In k (map fst d) -> assoc d k = None.
Proof.
  induction d as [|[k' v] d IH]; simpl; [reflexivity|].
  intros H. destruct (String.eqb k' k) eqn:E.
  - apply String.eqb_eq in E. tauto.
  - apply IH. tauto.
Qed.

Lemma assoc_skip {V : Type} (new d : list (string * V)) k :
  ~ In k (map fst new) -> assoc (new ++ d)%list k = assoc d k.
Proof.
  induction new as [|[k' v] new IH]; simpl; [reflexivity|].
  intros H. destruct (String.eqb k' k) eqn:E.
  - apply String.eqb_eq in E. tauto.
  - apply IH. tauto.
Qed.

Definition conditional_digest : regex :=
  IfGroup "tag" Eol (Cat (Lit "@") _digest_pattern_raw).

(** Once the tag group has matched, the last group of the pattern adds
    nothing and refuses nothing: [$] either fails or matches the empty
    text, and the group is optional. *)
Lemma after_tag_nothing_more s e k t :
  assoc e "tag" = Some t ->
  run (Opt conditional_digest) s e k = k s e.
Proof.
  intros Ht. unfold Opt. cbn [run].
  rewrite Nat.add_1_r. cbn [Nat.add rep Nat.eqb].
  unfold conditional_digest at 1. cbn [run]. rewrite Ht.
  rewrite Nat.eqb_refl. destruct (at_eol s); reflexivity.
Qed.

(** No match of the image pattern captures both a tag and a digest. *)
Lemma image_pattern_exclusive s m :
  re_match image_pattern s = Some m ->
  group m "tag" = None \/ group m "digest" = None.
Proof.
  unfold re_match, image_pattern, _image_pattern_raw. cbn [run].
  intros H.
  apply run_sound in H. destruct H as (_ & s1 & new1 & _ & H & N1).
  apply run_sound in H. destruct H as (_ & s2 & new2 & _ & H & N2).
  fold conditional_digest in H.
  rewrite app_nil_r in H.
  assert (Hd : ~ In "digest" (map fst (new2 ++ new1)%list)).
  { rewrite map_app. intros Hin. apply in_app_or in Hin as [Hin | Hin].
    - apply N2 in Hin. simpl in Hin.
      repeat destruct Hin as [Hin | Hin]; try discriminate Hin; auto.
    - apply N1 in Hin. simpl in Hin.
      repeat destruct Hin as [Hin | Hin]; try discriminate Hin; auto. }
  destruct (assoc (new2 ++ new1)%list "tag") as [t|] eqn:Ht.
  - right. rewrite (after_tag_nothing_more _ _ _ Ht) in H.
    injection H as <-. now apply assoc_absent.
  - left. apply run_sound in H. destruct H as (_ & s3 & new3 & _ & H & N3).
    injection H as <-. unfold group. rewrite assoc_skip; [exact Ht|].
    intros Hin. apply N3 in Hin. simpl in Hin.
    repeat destruct Hin as [Hin | Hin]; try discriminate Hin; auto.
Qed.

Definition tag_and_digest : string :=
  "foo:1.0@sha256:0123456789abcdef0123456789abcdef".

(** C3.  Built from explicit fields, a reference with both a tag and a
    digest is refused with ValueError, whatever the other arguments.
    Parsed from text, a reference never comes out with both; but the
    text itself is not refused: a tag followed by an at-sign and a
    digest parses, the tag kept and the digest left out. *)
Theorem C3_tag_and_digest :
  (forall image_str host_ port_ name_ t d,
      __init__ image_str host_ port_ name_ (Some t) (Some d)
      = Raise ValueError)
  /\ (forall image ref,
        parse image = Return ref -> tag ref = None \/ digest ref = None)
  /\ parse tag_and_digest
     = Return (mk None (PortInt 443) (Some "foo") (Some "1.0") None).
Proof.
  split; [reflexivity|]. split; [|reflexivity].
  intros image ref. unfold parse, __init__. simpl.
  unfold set__image.
  destruct (re_match image_pattern image) as [m|] eqn:E; [|discriminate].
  simpl. intros H. injection H as <-. simpl.
  now apply image_pattern_exclusive in E.
Qed.

Lemma C3_tag_and_digest_witness :
  parse "nginx:latest"
  = Return (mk None (PortInt 443) (Some "nginx") (Some "latest") None)
  /\ (tag (mk None (PortInt 443) (Some "nginx") (Some "latest") None) = None
      \/ digest (mk None (PortInt 443) (Some "nginx") (Some "latest") None) = None).
Proof.
  assert (H : parse "nginx:latest"
              = Return (mk None (PortInt 443) (Some "nginx") (Some "latest") None))
    by reflexivity.
  split; [exact H|].
  exact (proj1 (proj2 C3_tag_and_digest) "nginx:latest" _ H).
Defined.

End ExclusivityFacts.

(* ----------------------------------------------------------------- *)
(** ** The matcher: which path comes first *)

Module GreedyFacts.
Import Re TextFacts ReFacts.






Lemma take_append (w rest : string) :
  take (String.length (w ++ rest) - String.length rest) (w ++ rest) = w.
Proof.
  rewrite length_append, Nat.add_sub.
  induction w as [|c w IH]; simpl.
  - now destruct rest.
  - now rewrite IH.
Qed.









(** *** Repetitions *)



Definition within (n : nat) (hi : option nat) : Prop :=
  match hi with
  | Some h => n <= h
  | None => True
  end.








(** *** Runs of one character class *)






Lemma run_cat r1 r2 s e k :
run (Cat r1 r2) s e k = run r1 s e (fun s1 e1 => run r2 s1 e1 k).
Proof. reflexivity. Qed.



(** *** Classes *)







End GreedyFacts.



Module NameFacts.
Import TextFacts Re DockerImageReferenceParts GreedyFacts Grammar.

(** Facts about single characters are settled by going through them. *)
Ltac by_chars :=
  let c := fresh "c" in
  intros c; destruct c as [[|] [|] [|] [|] [|] [|] [|] [|]];
  vm_compute; intros; congruence.




















End NameFacts.

Module TagFacts.
Import TextFacts Re DockerImageReferenceParts GreedyFacts Grammar NameFacts.


Definition colon_tag : regex := Cat (Lit ":") _tag_pattern_raw.



End TagFacts.

Module DigestLiteralFacts.
Import TextFacts Re DockerImageReferenceParts GreedyFacts Grammar NameFacts.








End DigestLiteralFacts.

Module HostFacts.
Import TextFacts Re ReFacts DockerImageReferenceParts GreedyFacts Grammar NameFacts.


















(** *** The port and the slash *)

Definition colon_port : regex :=
  Cat (Lit ":") (Group "port" (Plus (Class [Rng "0" "9"]))).



End HostFacts.

Module SlashFacts.
Import TextFacts Re ReFacts DockerImageReferenceParts GreedyFacts Grammar NameFacts.
Import ScopeStringFacts.




















End SlashFacts.

(* ----------------------------------------------------------------- *)
(** ** Image references: formatting and parsing back *)

Module RoundTrip.
Import Re TextFacts ReFacts DockerImageReferenceParts DockerImageReference.
Import GreedyFacts Grammar NameFacts TagFacts DigestLiteralFacts HostFacts.
Import SlashFacts ExclusivityFacts ScopeStringFacts.


(** The continuation of [re_match]. *)
Definition done : cont := fun _ e => Some e.







(** *** The repo: with a registry *)


Definition add_port (p : option string) (e : env) : env :=
  match p with
  | Some digits => ("port", digits) :: e
  | None => e
  end.






(** *** The repo: a name alone *)


(** *** Parsing a formatted text *)




(** *** The decimal text of a port *)




(** *** References built from explicit fields *)








Example round_trip_examples :
  parse "localhost:5000/library/nginx:latest"
  = Return (mk (Some "localhost") (PortStr "5000") (Some "library/nginx")
               (Some "latest") None)
  /\ parse "[::1]/a__b-c.d/e"
     = Return (mk (Some "[::1]") (PortInt 443) (Some "a__b-c.d/e") None None)
  /\ parse "nginx@sha256:0123456789abcdef0123456789abcdef"
     = Return (mk None (PortInt 443) (Some "nginx") None
                  (Some "sha256:0123456789abcdef0123456789abcdef"))
  /\ parse "Nginx" = Raise AttributeError.
Proof. repeat split. Qed.

End RoundTrip.

(* ----------------------------------------------------------------- *)
(** ** Keyword checks: which arguments are set *)

Module ErrorUtilsFacts.

(** [v is not missing_sentinel], for the default sentinel [None]. *)
Definition is_set {V : Type} (kv : string * option V) : Prop :=
  snd kv <> None.

Definition set_b {V : Type} (kv : string * option V) : bool :=
  match snd kv with Some _ => true | None => false end.

Lemma set_b_true {V : Type} (kv : string * option V) :
  set_b kv = true <-> is_set kv.
Proof.
  unfold set_b, is_set. destruct (snd kv); split; intros H;
    try discriminate; try reflexivity; try congruence.
Qed.

Lemma length_not_missing {V : Type} (kwargs : list (string * option V)) :
  length (not_missing kwargs) = length (filter set_b kwargs).
Proof. unfold not_missing. now rewrite length_map. Qed.

Lemma length_missing {V : Type} (kwargs : list (string * option V)) :
  length (missing kwargs) = length (filter (fun kv => negb (set_b kv)) kwargs).
Proof.
  unfold missing. rewrite length_map. f_equal.
  apply filter_ext. intros kv. unfold set_b. now destruct (snd kv).
Qed.

Lemma filter_nonempty {A : Type} (p : A -> bool) (l : list A) :
  0 < length (filter p l) <-> Exists (fun x => p x = true) l.
Proof.
  induction l as [|a l IH]; simpl.
  - split; [lia | intros H; inversion H].
  - destruct (p a) eqn:E; simpl.
    + split; [intros _; now left | lia].
    + rewrite IH. split; [intros H; now right|].
      intros H. inversion H as [? ? Ha | ? ? Hl]; subst; [congruence | exact Hl].
Qed.

Lemma filter_empty {A : Type} (p : A -> bool) (l : list A) :
  length (filter p l) = 0 <-> Forall (fun x => p x = false) l.
Proof.
  induction l as [|a l IH]; simpl.
  - split; [constructor | reflexivity].
  - destruct (p a) eqn:E; simpl.
    + split; [lia | intros H; inversion H; subst; congruence].
    + rewrite IH. split; [intros H; now constructor|].
      intros H. now inversion H.
Qed.

Lemma filter_two {A : Type} (p : A -> bool) (l : list A) :
  1 < length (filter p l)
  <-> exists l1 x l2 y l3,
        l = (l1 ++ x :: l2 ++ y :: l3)%list /\ p x = true /\ p y = true.
Proof.
  split.
  - induction l as [|a l IH]; simpl; [intros H; lia|].
    destruct (p a) eqn:E; simpl.
    + intros H. assert (H' : 0 < length (filter p l)) by lia.
      apply filter_nonempty, Exists_exists in H' as (y & Hin & Hy).
      apply in_split in Hin as (l2 & l3 & ->).
      now exists [], a, l2, y, l3.
    + intros H. destruct (IH H) as (l1 & x & l2 & y & l3 & -> & Hx & Hy).
      now exists (a :: l1), x, l2, y, l3.
  - intros (l1 & x & l2 & y & l3 & -> & Hx & Hy).
    rewrite filter_app. simpl. rewrite Hx. simpl.
    rewrite filter_app. simpl. rewrite Hy. simpl.
    repeat (rewrite length_app; simpl). lia.
Qed.

(** X3.  [one_required] passes exactly when some argument is set, and
    [all_required] exactly when none is missing; with no argument at
    all the first raises and the second passes.  Both raise ValueError
    and nothing else. *)
Theorem required_checks {V : Type} (kwargs : list (string * option V)) :
  (one_required kwargs = Return tt <-> Exists is_set kwargs)
  /\ (one_required kwargs = Raise ValueError <-> ~ Exists is_set kwargs)
  /\ (all_required kwargs = Return tt <-> Forall is_set kwargs)
  /\ (all_required kwargs = Raise ValueError <-> ~ Forall is_set kwargs)
  /\ (all_required kwargs = Return tt -> kwargs <> [] ->
      one_required kwargs = Return tt).
Proof.
  assert (One : one_required kwargs = Return tt <-> Exists is_set kwargs).
  { unfold one_required. rewrite length_not_missing.
    destruct (_ <? 1)%nat eqn:E.
    - apply Nat.ltb_lt in E. split; [discriminate|].
      intros H. exfalso.
      assert (0 < length (filter set_b kwargs)); [|lia].
      apply filter_nonempty. eapply Exists_impl; [|exact H].
      intros kv. apply set_b_true.
    - apply Nat.ltb_ge in E. split; [|reflexivity].
      intros _. assert (H : 0 < length (filter set_b kwargs)) by lia.
      apply filter_nonempty in H. eapply Exists_impl; [|exact H].
      intros kv. apply set_b_true. }
  assert (All : all_required kwargs = Return tt <-> Forall is_set kwargs).
  { unfold all_required. rewrite length_missing.
    destruct (0 <? _)%nat eqn:E.
    - apply Nat.ltb_lt in E. split; [discriminate|].
      intros H. exfalso.
      apply filter_nonempty, Exists_exists in E as (kv & Hin & Hkv).
      rewrite Forall_forall in H. apply H in Hin.
      apply set_b_true in Hin. rewrite Hin in Hkv. discriminate.
    - apply Nat.ltb_ge in E. split; [|reflexivity].
      intros _. assert (H : length (filter (fun kv => negb (set_b kv)) kwargs) = 0)
        by lia.
      apply filter_empty in H. eapply Forall_impl; [|exact H].
      intros kv Hkv. apply set_b_true. cbv beta in Hkv.
      destruct (set_b kv); [reflexivity | discriminate Hkv]. }
  split; [exact One|]. split.
  { rewrite <- One. unfold one_required.
    destruct (_ <? 1)%nat; split; intros H; try reflexivity;
      try discriminate; congruence. }
  split; [exact All|]. split.
  { rewrite <- All. unfold all_required.
    destruct (0 <? _)%nat; split; intros H; try reflexivity;
      try discriminate; congruence. }
  intros H Hne. apply One. apply All in H.
  destruct kwargs as [|kv rest]; [congruence|].
  left. now inversion H.
Qed.

Lemma required_checks_witness :
  all_required [("host", Some 1); ("name", Some 2)] = Return tt
  /\ one_required [("host", Some 1); ("name", Some 2)] = Return tt.
Proof.
  assert (H : all_required [("host", Some 1); ("name", Some 2)] = Return tt)
    by reflexivity.
  split; [exact H|].
  apply (proj2 (proj2 (proj2 (proj2
           (required_checks [("host", Some 1); ("name", Some 2)])))));
    [exact H | discriminate].
Defined.

(** X4.  [mutually_exclusive] raises ValueError exactly when two of its
    arguments are set, and passes otherwise, also when none is set. *)
Theorem mutually_exclusive_cases {V : Type} (kwargs : list (string * option V)) :
  (mutually_exclusive kwargs = Raise ValueError
   <-> exists l1 k1 v1 l2 k2 v2 l3,
         kwargs = (l1 ++ (k1, Some v1) :: l2 ++ (k2, Some v2) :: l3)%list)
  /\ (mutually_exclusive kwargs = Return tt
      \/ mutually_exclusive kwargs = Raise ValueError).
Proof.
  assert (Two : (1 <? length (not_missing kwargs))%nat = true
                <-> exists l1 k1 v1 l2 k2 v2 l3,
                      kwargs = (l1 ++ (k1, Some v1) :: l2 ++ (k2, Some v2) :: l3)%list).
  { rewrite Nat.ltb_lt, length_not_missing, filter_two. split.
    - intros (l1 & [k1 [v1|]] & l2 & [k2 [v2|]] & l3 & -> & Hx & Hy);
        try discriminate.
      now exists l1, k1, v1, l2, k2, v2, l3.
    - intros (l1 & k1 & v1 & l2 & k2 & v2 & l3 & ->).
      now exists l1, (k1, Some v1), l2, (k2, Some v2), l3. }
  split.
  - rewrite <- Two. unfold mutually_exclusive.
    destruct (1 <? length kwargs)%nat eqn:L.
    + destruct (1 <? length (not_missing kwargs))%nat; split; intros H;
        try reflexivity; try discriminate.
    + split; [discriminate|]. intros H. exfalso.
      apply Nat.ltb_ge in L. apply Nat.ltb_lt in H.
      rewrite length_not_missing in H.
      pose proof (filter_length_le set_b kwargs). lia.
  - unfold mutually_exclusive.
    destruct (1 <? length kwargs)%nat; [|now left].
    destruct (1 <? length (not_missing kwargs))%nat; [now right | now left].
Qed.

End ErrorUtilsFacts.

(* ----------------------------------------------------------------- *)
(** ** Error codes and their messages *)

Module ErrorModelFacts.
Import ErrorModel.

Lemma is_code_value_member s :
  is_code_value s = true -> exists c, s = code_value c.
Proof.
  unfold is_code_value. intros H.
  apply existsb_exists in H as (c & _ & H).
  apply String.eqb_eq in H. now exists c.
Qed.

(** X5.  An [ExceptionMapping] is constructed from every member of
    [ErrorCode], with the member's value as its code and the message
    registered under that name; from a plain string it is never
    constructed: a string that is no code value is refused with
    ValueError, and one that is a code value stops with AttributeError
    at [code.value]. *)
Theorem exception_mapping_needs_a_member :
  (forall c, exists msg,
      assoc ErrorMessage (code_value c) = Some msg
      /\ __init__ (Member c) = Return (mkMapping (code_value c) msg))
  /\ (forall s,
        (is_code_value s = false /\ __init__ (Text s) = Raise ValueError)
        \/ ((exists c, s = code_value c)
            /\ __init__ (Text s) = Raise AttributeError)).
Proof.
  split.
  - intros c. destruct c; eexists; split; reflexivity.
  - intros s. unfold __init__.
    destruct (is_code_value s) eqn:E; simpl.
    + right. split; [now apply is_code_value_member | reflexivity].
    + left. split; reflexivity.
Qed.

End ErrorModelFacts.

(* ----------------------------------------------------------------- *)
(** ** Digests: the prefix and the order of the validators *)

Module DigestPrefixFacts.
Import Digest TextFacts.

Lemma startswith_split s p :
  startswith s p = true -> s = p ++ drop (String.length p) s.
Proof.
  revert s. induction p as [|a p IH]; intros s H; simpl in *; [reflexivity|].
  destruct s as [|b s]; [discriminate|].
  apply andb_prop in H as [Hab Hs].
  apply Ascii.eqb_eq in Hab. subst b. simpl. f_equal. now apply IH.
Qed.

Lemma pop_prefix_from_some ps value p rest :
  pop_prefix_from ps value = (Some p, rest) ->
  In p ps /\ value = p ++ rest /\ existsb (startswith value) ps = true.
Proof.
  induction ps as [|q ps IH]; simpl; [discriminate|].
  destruct (startswith value q) eqn:E.
  - intros H. injection H as <- <-.
    split; [now left|]. split; [|reflexivity].
    unfold removeprefix. rewrite E. now apply startswith_split.
  - intros H. apply IH in H as (Hin & Hv & Hex).
    split; [now right|]. split; [exact Hv | exact Hex].
Qed.

Lemma pop_prefix_from_none ps value rest :
  pop_prefix_from ps value = (None, rest) ->
  rest = value /\ existsb (startswith value) ps = false.
Proof.
  induction ps as [|q ps IH]; simpl.
  - intros H. injection H as <-. now split.
  - destruct (startswith value q) eqn:E; [discriminate|]. exact IH.
Qed.

(** X1.  [_pop_prefix] cuts the value in two: with a prefix, the prefix is
    one of [valid_prefixes], the remainder is the text after it, and
    [is_prefixed] accepts the value; without one, the value is returned
    whole and [is_prefixed] refuses it with ValueError. *)
Theorem pop_prefix_splits (algs : list string) (value : string) :
  match _pop_prefix algs value with
  | (Some prefix, rest) =>
      In prefix (valid_prefixes algs)
      /\ value = prefix ++ rest
      /\ is_prefixed algs value = Return value
  | (None, rest) =>
      rest = value
      /\ (forall prefix, In prefix (valid_prefixes algs) ->
                         startswith value prefix = false)
      /\ is_prefixed algs value = Raise ValueError
  end.
Proof.
  unfold _pop_prefix, is_prefixed.
  destruct (pop_prefix_from (valid_prefixes algs) value) as [[p|] rest] eqn:E.
  - apply pop_prefix_from_some in E as (Hin & Hv & Hex).
    now rewrite Hex.
  - apply pop_prefix_from_none in E as (Hv & Hex).
    rewrite Hex. split; [exact Hv|]. split; [|reflexivity].
    intros p Hin. destruct (startswith value p) eqn:S; [|reflexivity].
    assert (existsb (startswith value) (valid_prefixes algs) = true).
    { apply existsb_exists. now exists p. }
    congruence.
Qed.

(** X2.  Run in their listed order, the three validators accept no value at
    all: a value without a known prefix, or with a character after the
    prefix that is no hex digit, stops with ValueError, and every other
    value stops with KeyError at the length table. *)
Theorem validators_in_order_never_return (algs : list string) (value : string) :
  exists e,
    validators_in_order algs value = Raise e
    /\ (e = ValueError \/ e = KeyError)
    /\ (e = KeyError
        <-> is_prefixed algs value = Return value
            /\ is_hex algs value = Return value).
Proof.
  unfold validators_in_order.
  destruct (is_prefixed algs value) as [v|e] eqn:P.
  - assert (v = value) as ->.
    { unfold is_prefixed in P. destruct (negb _); congruence. }
    simpl. destruct (is_hex algs value) as [v|e] eqn:H.
    + assert (v = value) as ->.
      { unfold is_hex in H. destruct (_pop_prefix algs value).
        destruct (negb _); congruence. }
      simpl. rewrite DigestFacts.is_correct_length_raises.
      exists KeyError. split; [reflexivity|]. split; [now right|].
      split; auto.
    + simpl. exists e.
      assert (e = ValueError) as ->.
      { unfold is_hex in H. destruct (_pop_prefix algs value).
        destruct (negb _); congruence. }
      split; [reflexivity|]. split; [now left|].
      split; [discriminate|]. intros [_ H']. discriminate.
  - simpl. exists e.
    assert (e = ValueError) as ->.
    { unfold is_prefixed in P. destruct (negb _); congruence. }
    split; [reflexivity|]. split; [now left|].
    split; [discriminate|]. intros [H' _]. discriminate.
Qed.

End DigestPrefixFacts.

(* ----------------------------------------------------------------- *)
(** ** Token validation: what can be raised, and how grants add up *)

Module ValidateTotalFacts.
Import Validate ValidateFacts.

Lemma scope_ok_well_shaped v : Spec.scope_ok v = true -> well_shaped v.
Proof.
  destruct v as [| | | |?|d]; try discriminate. simpl.
  destruct (assoc d "type") as [ty|] eqn:T; [|discriminate].
  destruct (assoc d "name") as [nm|] eqn:N;
    [|now rewrite andb_false_r].
  destruct (assoc d "actions") as [[| | | |l|?]|] eqn:A;
    try (now rewrite andb_false_r).
  intros _. now exists d, ty, nm, l.
Qed.

Lemma access_ok_well_shaped l :
  forallb Spec.scope_ok l = true -> Forall well_shaped l.
Proof.
  intros H. apply Forall_forall. intros v Hin.
  apply scope_ok_well_shaped.
  rewrite forallb_forall in H. now apply H.
Qed.







(** X7.  [scope_is_allowed] itself raises nothing but KeyError and
    TypeError, and only on an access list with an entry that is not a
    dict with the three keys and a list of actions. *)
Theorem scope_is_allowed_raises
        (scope : ThrupleStr) (access : list pyval) (e : exn)
        (H : scope_is_allowed scope access = Raise e) :
  (e = KeyError \/ e = TypeError) /\ ~ Forall well_shaped access.
Proof.
  destruct scope as [[t n] a]. split.
  - revert H. induction access as [|v rest IH]; [discriminate|].
    cbn [scope_is_allowed].
    assert (S : forall k x, subscript v k = Raise x ->
                            x = KeyError \/ x = TypeError).
    { intros k x. destruct v as [| | | |?|d]; simpl;
        try (intros E; injection E as <-; now right).
      unfold getitem. destruct (assoc d k); [discriminate|].
      intros E; injection E as <-; now left. }
    destruct (subscript v "type") as [ty|x] eqn:Ty; simpl;
      [|intros E; injection E as <-; eauto].
    destruct (eq_str ty t); [|exact IH].
    destruct (subscript v "name") as [nm|x] eqn:Nm; simpl;
      [|intros E; injection E as <-; eauto].
    destruct (eq_str nm n); [|exact IH].
    destruct (subscript v "actions") as [acs|x] eqn:Ac; simpl;
      [|intros E; injection E as <-; eauto].
    destruct (contains acs a) as [found|x] eqn:Cn; simpl.
    + destruct found; [discriminate | exact IH].
    + intros E; injection E as <-.
      destruct acs; simpl in Cn; try discriminate;
        injection Cn as <-; now right.
  - intros W. rewrite (scope_is_allowed_total t n a W) in H. discriminate.
Qed.

Lemma scope_is_allowed_raises_witness :
  scope_is_allowed ("repository", "foo", "pull") [VStr "foo"] = Raise TypeError
  /\ (TypeError = KeyError \/ TypeError = TypeError)
  /\ ~ Forall well_shaped [VStr "foo"].
Proof.
  assert (H : scope_is_allowed ("repository", "foo", "pull") [VStr "foo"]
              = Raise TypeError) by reflexivity.
  split; [exact H|]. exact (scope_is_allowed_raises _ _ H).
Defined.

(** X8.  Grants add up, in any order: over two well-shaped access lists put
    together, a scope is allowed exactly when it is allowed over one of
    them.  Adding entries never revokes a scope. *)
Theorem grants_accumulate
        (scope : ThrupleStr) (access more : list pyval) (b1 b2 : bool)
        (Hshape : Forall well_shaped access)
        (Hmore : Forall well_shaped more)
        (H1 : scope_is_allowed scope access = Return b1)
        (H2 : scope_is_allowed scope more = Return b2) :
  scope_is_allowed scope (access ++ more)%list = Return (b1 || b2)%bool
  /\ scope_is_allowed scope (more ++ access)%list = Return (b1 || b2)%bool.
Proof.
  destruct scope as [[t n] a].
  rewrite (scope_is_allowed_total t n a Hshape) in H1.
  rewrite (scope_is_allowed_total t n a Hmore) in H2.
  injection H1 as <-. injection H2 as <-.
  split.
  - rewrite scope_is_allowed_total by (apply Forall_app; now split).
    now rewrite existsb_app.
  - rewrite scope_is_allowed_total by (apply Forall_app; now split).
    now rewrite existsb_app, orb_comm.
Qed.

Definition bar_list : pyval :=
  VDict [("type", VStr "repository");
         ("name", VStr "bar");
         ("actions", VList [VStr "list"])].

Lemma entry_well_shaped ty nm l :
  well_shaped (VDict [("type", ty); ("name", nm); ("actions", VList l)]).
Proof.
  exists [("type", ty); ("name", nm); ("actions", VList l)], ty, nm, l.
  repeat split.
Qed.

Lemma grants_accumulate_witness :
  scope_is_allowed ("repository", "foo", "pull") [bar_list; foo_pull_push]
  = Return true
  /\ scope_is_allowed ("repository", "foo", "pull") [foo_pull_push; bar_list]
     = Return true.
Proof.
  apply (@grants_accumulate ("repository", "foo", "pull")
           [bar_list] [foo_pull_push] false true).
  - constructor; [apply entry_well_shaped | constructor].
  - constructor; [apply entry_well_shaped | constructor].
  - reflexivity.
  - reflexivity.
Defined.

Lemma scope_is_allowed_singleton scope access :
  scope_is_allowed_list [scope] access = scope_is_allowed scope access.
Proof.
  cbn [scope_is_allowed_list].
  destruct (scope_is_allowed scope access) as [[|]|e]; reflexivity.
Qed.

(** X9.  A single scope is checked as the list that holds only it, and a
    list put together from two is checked as the first and then, if
    that one is allowed, the second: a request is granted when each of
    its parts is, and the first refused or faulty scope decides. *)
Theorem scope_list_forms
        (decode : string -> result claims) (tok : token) :
  (forall scope,
      validate_token_data_scope decode tok (Many [scope])
      = validate_token_data_scope decode tok (One scope))
  /\ (forall scopes more access,
        scope_is_allowed_list (scopes ++ more)%list access
        = (ok <- scope_is_allowed_list scopes access ;;
           if ok then scope_is_allowed_list more access else Return false)).
Proof.
  split.
  - intros scope. unfold validate_token_data_scope.
    destruct (validate_token_data decode tok) as [v|e]; [|reflexivity].
    cbn [bind]. destruct v; try reflexivity.
    destruct (subscript (VDict d) "access") as [[| | | |l|?]|e];
      try reflexivity.
    cbn [bind scope_is_allowed_u]. now rewrite scope_is_allowed_singleton.
  - intros scopes more access.
    induction scopes as [|sc scopes IH]; simpl; [reflexivity|].
    destruct (scope_is_allowed sc access) as [[|]|e]; simpl;
      [exact IH | reflexivity | reflexivity].
Qed.

(** X21.  Against a decoded dict, validation with a scope returns the
    claims exactly when their [access] claim has the required shape and
    one of its entries has that very type and that very name and lists
    that very action; in every other case it returns [None]. *)
Theorem validated_scope_iff
        (decode : string -> result claims) (data : claims)
        (type_ name action : string) :
  (validate_token_data_scope decode (Decoded data) (One (type_, name, action))
   = Return (VDict data)
   <-> Spec.access_ok data = true
       /\ exists l, assoc data "access" = Some (VList l)
                    /\ Exists (grants type_ name action) l)
  /\ (validate_token_data_scope decode (Decoded data)
                                (One (type_, name, action))
      = Return (VDict data)
      \/ validate_token_data_scope decode (Decoded data)
                                   (One (type_, name, action))
         = Return VNone).
Proof.
  assert (V : validate_token_data decode (Decoded data)
              = if Spec.access_ok data then Return (VDict data)
                else Return VNone)
    by apply validate_dict_cases.
  destruct (Spec.access_ok data) eqn:Ok.
  - destruct (access_ok_lookup _ Ok) as (l & Hl & Hok).
    rewrite (validate_scope_unfold _ _ (One (type_, name, action)) V Hl).
    cbn [scope_is_allowed_u].
    rewrite (scope_is_allowed_total type_ name action
                                    (access_ok_well_shaped _ Hok)).
    cbn [bind].
    assert (G : existsb (entry_allows type_ name action) l = true
                <-> Exists (grants type_ name action) l).
    { rewrite existsb_exists, Exists_exists.
      split; intros (v & Hin & Hv); exists v; split; auto;
        now apply entry_allows_grants. }
    destruct (existsb (entry_allows type_ name action) l).
    + split; [|now left]. split; [intros _|reflexivity].
      split; [reflexivity|]. exists l. split; [exact Hl | now apply G].
    + split; [|now right]. split; [discriminate|].
      intros (_ & l' & Hl' & Hg). rewrite Hl in Hl'. injection Hl' as <-.
      apply G in Hg. discriminate.
  - unfold validate_token_data_scope. rewrite V. cbn [bind].
    split; [|now right]. split; [discriminate|]. intros [H _]. discriminate.
Qed.

End ValidateTotalFacts.

(* ----------------------------------------------------------------- *)
(** ** Issued tokens: what is signed, and how it validates *)

Module IssueFacts.
Import Validate ValidateFacts Generate.

(** The enum-typed fields of an entry hold values of their enums. *)
Definition valid_entry (g : TokenAccess) : bool :=
  (str_in (type g) ResourceType
   && forallb (fun a => str_in a ResourceAction) (actions g))%bool.

Lemma actions_ok_encoded l :
  forallb Spec.action_ok (map VStr l)
  = forallb (fun a => str_in a ResourceAction) l.
Proof.
  induction l as [|a l IH]; [reflexivity|].
  cbn [map forallb]. now rewrite IH.
Qed.

Lemma scope_ok_encoded g :
  Spec.scope_ok (TokenAccess_dict g) = valid_entry g.
Proof.
  unfold TokenAccess_dict, valid_entry, Spec.scope_ok. cbn [assoc String.eqb Ascii.eqb Bool.eqb].
  rewrite actions_ok_encoded. now rewrite andb_true_r.
Qed.

Lemma access_ok_encoded granted :
  forallb Spec.scope_ok (encode granted) = forallb valid_entry granted.
Proof.
  induction granted as [|g granted IH]; [reflexivity|].
  cbn [encode map forallb]. rewrite scope_ok_encoded. f_equal. exact IH.
Qed.

Lemma allowed_encoded type_ name action granted :
  existsb (entry_allows type_ name action) (encode granted) = true
  <-> exists g, In g granted /\ type g = type_ /\ Generate.name g = name
                /\ In action (actions g).
Proof.
  rewrite existsb_exists. split.
  - intros (v & Hin & Hv). apply in_map_iff in Hin as (g & <- & Hin).
    apply entry_allows_grants, grants_encoded in Hv. now exists g.
  - intros (g & Hin & Hg). exists (TokenAccess_dict g). split.
    + now apply in_map.
    + now apply entry_allows_grants, grants_encoded.
Qed.

Definition plain {datetime : Type} (data : list (string * pyval))
  : list (string * jwt_value datetime) :=
  map (fun kv => (fst kv, Plain datetime (snd kv))) data.

Lemma assoc_plain {datetime : Type} (data : list (string * pyval)) k :
  assoc (@plain datetime data) k = option_map (Plain datetime) (assoc data k).
Proof.
  induction data as [|[k' v] data IH]; [reflexivity|].
  simpl. destruct (String.eqb k' k); [reflexivity | exact IH].
Qed.

Section Issue.

Variables datetime timedelta : Type.
Variable add : datetime -> timedelta -> result datetime.
Variable sub : datetime -> timedelta -> result datetime.
Variable timedelta_seconds : Z -> result timedelta.
Variable int_timestamp : datetime -> Z.
Variable DEFAULT_TOKEN_VALIDITY_PERIOD : timedelta.
Variable clock : nat -> datetime.
Variable jwt_encode : list (string * jwt_value datetime) -> result string.
Variable jwt_decode : string -> result claims.

Let claims_of := token_claims sub timedelta_seconds int_timestamp.
Let jwt :=
  create_jwt add DEFAULT_TOKEN_VALIDITY_PERIOD clock jwt_encode.
Let token_of :=
  create_token_of_data add sub timedelta_seconds int_timestamp
                       DEFAULT_TOKEN_VALIDITY_PERIOD clock jwt_encode.

Lemma claims_access td data :
  claims_of td = Return data ->
  assoc data "access" = Some (VList (encode (access td)))
  /\ assoc data "exp" = Some (VInt (int_timestamp (expiration td))).
Proof.
  unfold claims_of, token_claims.
  destruct (timedelta_seconds 5) as [five|]; [|discriminate]. simpl.
  destruct (sub (issued td) five) as [nbf|]; [|discriminate]. simpl.
  intros H. injection H as <-. split; reflexivity.
Qed.

(** X10.  The claims that [create_token] assembles pass the validator when
    every entry holds values of the two enums, and only then; and over
    them, a scope is allowed exactly when some entry of the token data
    names that type and that name and lists that action. *)
Theorem issued_claims_validate
        (td : TokenData datetime) (data : claims)
        (H : claims_of td = Return data) :
  validate_token_data jwt_decode (Decoded data)
  = Return (if forallb valid_entry (access td) then VDict data else VNone)
  /\ (forallb valid_entry (access td) = true ->
      forall type_ name action,
      exists b : bool,
        validate_token_data_scope jwt_decode (Decoded data)
                                  (One (type_, name, action))
        = Return (if b then VDict data else VNone)
        /\ (b = true <->
            exists g, In g (access td) /\ type g = type_
                      /\ Generate.name g = name /\ In action (actions g))).
Proof.
  destruct (@claims_access td data H) as [Ha _].
  assert (Ok : Spec.access_ok data = forallb valid_entry (access td)).
  { unfold Spec.access_ok. rewrite Ha. apply access_ok_encoded. }
  assert (V : validate_token_data jwt_decode (Decoded data)
              = Return (if forallb valid_entry (access td)
                        then VDict data else VNone)).
  { cbn [validate_token_data]. rewrite validate_dict_cases, Ok.
    now destruct (forallb valid_entry (access td)). }
  split; [exact V|].
  intros Hv t n a. rewrite Hv in V.
  exists (existsb (entry_allows t n a) (encode (access td))).
  split; [|apply allowed_encoded].
  rewrite (validate_scope_unfold _ _ (One (t, n, a)) V Ha).
  cbn [scope_is_allowed_u].
  rewrite (scope_is_allowed_total t n a (encode_well_shaped (access td))).
  cbn [bind]. now destruct (existsb _ _).
Qed.

(** X11.  An [exp] claim that the caller put in the data is kept by
    [create_jwt]: the clock is not read and [expires_delta] is ignored.
    That is the case of [create_token], whose claims carry the
    expiration it resolved: they are signed as they are. *)
Theorem create_jwt_keeps_exp
        (data : claims) (exp : pyval) (H : assoc data "exp" = Some exp) :
  (forall expires_delta n,
      jwt data expires_delta n
      = (encoded_token <- jwt_encode (plain data) ;;
         Return (encoded_token, n)))
  /\ (forall td n,
        token_of td n
        = (data <- claims_of td ;;
           encoded_token <- jwt_encode (plain data) ;;
           Return (encoded_token, n))).
Proof.
  assert (J : forall data exp, assoc data "exp" = Some exp ->
              forall expires_delta n,
                jwt data expires_delta n
                = (encoded_token <- jwt_encode (plain data) ;;
                   Return (encoded_token, n))).
  { clear data exp H. intros data exp H expires_delta n.
    unfold jwt, create_jwt. fold (@plain datetime data).
    rewrite assoc_plain, H. reflexivity. }
  split; [exact (J data exp H)|].
  intros td n. unfold token_of, create_token_of_data, io_bind, lift.
  fold claims_of.
  destruct (claims_of td) as [cl|e] eqn:C; [|reflexivity].
  destruct (@claims_access td cl C) as [_ He].
  simpl. exact (J cl _ He None n).
Qed.


End Issue.

Definition pull_nginx : TokenAccess :=
  mkAccess "repository" "library/nginx" ["pull"].

Definition alice_data : TokenData Z :=
  mkTokenData [pull_nginx] "alice" "mock-registry" "mock-registry"
              1700000300%Z 1700000000%Z.

Definition alice_issued : claims :=
  [("iss", VStr "mock-registry");
   ("sub", VStr "alice");
   ("aud", VStr "mock-registry");
   ("exp", VInt 1700000300);
   ("iat", VInt 1700000000);
   ("nbf", VInt 1699999995);
   ("access", VList [TokenAccess_dict pull_nginx])].

Lemma issued_claims_validate_witness :
  token_claims GenerateFacts.utc_sub GenerateFacts.utc_seconds (fun d => d)
               alice_data
  = Return alice_issued
  /\ validate_token_data sample_decode (Decoded alice_issued)
     = Return (VDict alice_issued).
Proof.
  assert (H : token_claims GenerateFacts.utc_sub GenerateFacts.utc_seconds
                           (fun d => d) alice_data
              = Return alice_issued) by reflexivity.
  split; [exact H|].
  exact (proj1 (issued_claims_validate
                  GenerateFacts.utc_sub GenerateFacts.utc_seconds
                  (fun d => d) sample_decode alice_data H)).
Defined.

(** A signer that only names what it was given. *)
Definition sample_encode (payload : list (string * jwt_value Z))
  : result string :=
  Return (String.concat "." (map fst payload)).

Lemma create_jwt_keeps_exp_witness :
  assoc alice_issued "exp" = Some (VInt 1700000300)
  /\ create_jwt GenerateFacts.utc_add 300%Z GenerateFacts.utc_clock
                sample_encode alice_issued (Some 60%Z) 0
     = Return ("iss.sub.aud.exp.iat.nbf.access", 0).
Proof.
  assert (H : assoc alice_issued "exp" = Some (VInt 1700000300))
    by reflexivity.
  split; [exact H|].
  exact (proj1 (create_jwt_keeps_exp GenerateFacts.utc_add
                  GenerateFacts.utc_sub GenerateFacts.utc_seconds
                  (fun d => d) 300%Z GenerateFacts.utc_clock
                  sample_encode alice_issued H) (Some 60%Z) 0).
Defined.



End IssueFacts.

(* ----------------------------------------------------------------- *)
(** ** The matcher: what a match has consumed *)

Module LanguageFacts.
Import Re TextFacts ReFacts GreedyFacts.

(** The texts that a pattern can consume: [lang r w] when [w] is made
    up as [r] asks.  [$] and a skipped optional part consume nothing. *)
Fixpoint lang (r : regex) (w : string) : Prop :=
  match r with
  | Class cl => exists c, w = String c "" /\ in_class cl c = true
  | Cat r1 r2 => exists w1 w2, w = w1 ++ w2 /\ lang r1 w1 /\ lang r2 w2
  | Alt r1 r2 => lang r1 w \/ lang r2 w
  | Repeat r' lo hi =>
      exists ws, w = cat_all ws /\ Forall (lang r') ws
                 /\ lo <= length ws /\ within (length ws) hi
  | Group _ r' => lang r' w
  | IfGroup _ yes no => lang yes w \/ lang no w
  | Eol => w = ""
  end.

(** [k] is reached from [s] after a text of [L] has been consumed,
    with captures added through groups among [ns]. *)
Definition consumes (L : string -> Prop) (ns : list string)
           (s : string) (e : env) (k : cont) (m : env) : Prop :=
  exists w s' new,
    s = w ++ s'
    /\ L w
    /\ k s' (new ++ e)%list = Some m
    /\ incl (map fst new) ns.

Definition repeated (L : string -> Prop) (lo : nat) (hi : option nat)
           (w : string) : Prop :=
  exists ws, w = cat_all ws /\ Forall L ws
             /\ lo <= length ws /\ within (length ws) hi.

Lemma consumes_nothing (L : string -> Prop) ns s e k m :
  L "" -> k s e = Some m -> consumes L ns s e k m.
Proof.
  intros HL H. exists "", s, []. repeat split; auto. intros x [].
Qed.

Lemma repeated_none (L : string -> Prop) hi : repeated L 0 hi "".
Proof.
  exists []. repeat split; auto. destruct hi; simpl; lia.
Qed.

Section RepetitionLanguage.

Variable body : string -> env -> cont -> option env.
Variable ns : list string.
Variable L : string -> Prop.
Hypothesis body_lang :
  forall s e k m, body s e k = Some m -> consumes L ns s e k m.

Lemma rep_lang k budget :
  forall lo hi s e m,
    rep body k budget lo hi s e = Some m ->
    consumes (repeated L lo hi) ns s e k m.
Proof.
  induction budget as [|budget IH]; intros lo hi s e m H.
  - simpl in H. destruct lo; [|discriminate].
    apply consumes_nothing; [apply repeated_none | exact H].
  - assert (Stop : (if (lo =? 0)%nat then k s e else None) = Some m ->
                   consumes (repeated L lo hi) ns s e k m).
    { destruct lo; [|discriminate]. simpl.
      apply consumes_nothing. apply repeated_none. }
    assert (Step : forall hi',
               within 1 hi ->
               (forall n, within n hi' -> within (S n) hi) ->
               body s e
                    (fun s' e' =>
                       if ((lo =? 0)%nat
                           && (String.length s' =? String.length s)%nat)%bool
                       then None
                       else rep body k budget (pred lo) hi' s' e')
               = Some m ->
               consumes (repeated L lo hi) ns s e k m).
    { intros hi' W1 W B. apply body_lang in B.
      destruct B as (w & s1 & new & -> & Hw & B & Hn).
      destruct (_ && _)%bool; [discriminate|].
      apply IH in B.
      destruct B as (w' & s2 & new' & -> & (ws & -> & Hws & Hlo & Hhi) & B & Hn').
      exists (w ++ cat_all ws), s2, (new' ++ new)%list.
      split; [now rewrite append_assoc|].
      split.
      { exists (w :: ws). split; [reflexivity|].
        split; [now constructor|]. simpl. split; [lia | now apply W]. }
      split; [now rewrite <- app_assoc|].
      rewrite map_app. intros x Hx.
      apply in_app_or in Hx as [Hx | Hx]; auto. }
    simpl in H.
    destruct hi as [[|hi]|]; auto.
    + destruct (body s e _) as [m'|] eqn:B; auto.
      injection H as ->. apply (Step (Some hi)); auto.
      * simpl. lia.
      * simpl. intros n Hn. lia.
    + destruct (body s e _) as [m'|] eqn:B; auto.
      injection H as ->. apply (Step None); simpl; auto.
Qed.

End RepetitionLanguage.

(** Whatever [run] returns, the continuation returned it after a text
    of the pattern's language was consumed. *)
Theorem run_lang r :
  forall s e k m, run r s e k = Some m -> consumes (lang r) (names r) s e k m.
Proof.
  induction r as [cl | r1 IH1 r2 IH2 | r1 IH1 r2 IH2 | r IH lo hi
                  | name r IH | name yes IHy no IHn |];
    intros s e k m H; cbn [run] in H.
  - destruct s as [|c s']; [discriminate|].
    destruct (in_class cl c) eqn:C; [|discriminate].
    exists (String c ""), s', []. repeat split; auto.
    + simpl. eauto.
    + intros x [].
  - apply IH1 in H. destruct H as (w1 & s1 & new1 & -> & L1 & H & N1).
    apply IH2 in H. destruct H as (w2 & s2 & new2 & -> & L2 & H & N2).
    exists (w1 ++ w2), s2, (new2 ++ new1)%list.
    split; [now rewrite append_assoc|].
    split; [simpl; eauto|].
    split; [now rewrite <- app_assoc|].
    rewrite map_app. simpl. intros x Hx.
    apply in_app_or in Hx as [Hx | Hx]; apply in_or_app; auto.
  - destruct (run r1 s e k) as [m'|] eqn:E.
    + injection H as ->. apply IH1 in E.
      destruct E as (w & s' & new & -> & Lw & E & N).
      exists w, s', new. repeat split; simpl; auto.
      intros x Hx. apply in_or_app. auto.
    + apply IH2 in H.
      destruct H as (w & s' & new & -> & Lw & E' & N).
      exists w, s', new. repeat split; simpl; auto.
      intros x Hx. apply in_or_app. auto.
  - eapply rep_lang in H; [|exact IH]. exact H.
  - apply IH in H. destruct H as (w & s' & new & -> & Lw & H & N).
    exists w, s',
      ((name, take (String.length (w ++ s') - String.length s') (w ++ s'))
         :: new)%list.
    repeat split; auto.
    simpl. intros x [<- | Hx]; [now left | right; auto].
  - destruct (assoc e name).
    + apply IHy in H. destruct H as (w & s' & new & -> & Lw & H & N).
      exists w, s', new. repeat split; simpl; auto.
      intros x Hx. apply in_or_app. auto.
    + apply IHn in H. destruct H as (w & s' & new & -> & Lw & H & N).
      exists w, s', new. repeat split; simpl; auto.
      intros x Hx. apply in_or_app. auto.
  - destruct (at_eol s); [|discriminate].
    apply consumes_nothing; [reflexivity | exact H].
Qed.

(** A group around a pattern with no group inside captures exactly the
    text that the pattern consumed. *)
Lemma group_lang name r s e k m :
  names r = [] ->
  run (Group name r) s e k = Some m ->
  exists w s', s = w ++ s' /\ lang r w /\ k s' ((name, w) :: e) = Some m.
Proof.
  intros Hn H. cbn [run] in H. apply run_lang in H.
  destruct H as (w & s' & new & -> & Lw & H & N).
  rewrite Hn in N. destruct new as [|x new].
  - simpl in H. rewrite take_append in H. now exists w, s'.
  - exfalso. apply (N (fst x)). now left.
Qed.

Lemma lit_inv c s e k m :
  run (Lit c) s e k = Some m ->
  exists s', s = String c s' /\ k s' e = Some m.
Proof.
  unfold Lit. cbn [run]. destruct s as [|x s']; [discriminate|].
  unfold in_class. cbn [existsb item_matches]. rewrite orb_false_r.
  destruct (Ascii.eqb x c) eqn:E; [|discriminate].
  apply Ascii.eqb_eq in E. subst x. intros H. now exists s'.
Qed.

Lemma rep_zero body k budget s e : rep body k budget 0 (Some 0) s e = k s e.
Proof. destruct budget; reflexivity. Qed.

(** An optional part was either matched, on a path that went on to the
    continuation, or skipped. *)
Lemma opt_inv r s e k m :
  run (Opt r) s e k = Some m ->
  (exists k', (forall s' e', k' s' e' = Some m -> k s' e' = Some m)
              /\ run r s e k' = Some m)
  \/ k s e = Some m.
Proof.
  unfold Opt. cbn [run]. rewrite Nat.add_1_r. cbn [Nat.add rep Nat.eqb].
  destruct (run r s e _) as [m'|] eqn:E; [|now right].
  intros H. injection H as ->. left.
  eexists. split; [|exact E].
  intros s' e' H. cbn beta in H.
  destruct (_ && _)%bool; [discriminate|].
  cbn [pred option_map] in H. now rewrite rep_zero in H.
Qed.

(** A repetition with no mandatory iteration never refuses a text that
    its continuation accepts. *)
Lemma rep_accepts body k budget hi s e :
  k s e <> None -> rep body k budget 0 hi s e <> None.
Proof.
  intros H. destruct budget as [|budget]; [exact H|].
  cbn [rep Nat.eqb]. destruct hi as [[|h]|]; auto;
    destruct (body s e _); auto; discriminate.
Qed.

Lemma repeat_accepts r hi s e k :
  k s e <> None -> run (Repeat r 0 hi) s e k <> None.
Proof. intros H. cbn [run]. now apply rep_accepts. Qed.

(** A repetition of a character class consumes characters of the
    class, as many as the bounds allow. *)
Lemma lang_class_run cl lo hi w :
  lang (Repeat (Class cl) lo hi) w ->
  str_all (in_class cl) w = true
  /\ lo <= String.length w /\ within (String.length w) hi.
Proof.
  cbn [lang]. intros (ws & -> & Hws & Hlo & Hhi).
  assert (H : str_all (in_class cl) (cat_all ws) = true
              /\ String.length (cat_all ws) = length ws).
  { clear Hlo Hhi. induction Hws as [|w ws (c & -> & Hc) _ [IH1 IH2]].
    - now split.
    - simpl. rewrite Hc, IH1, IH2. now split. }
  destruct H as [H1 H2]. rewrite H2. auto.
Qed.

End LanguageFacts.

(* ----------------------------------------------------------------- *)
(** ** Image references: what any parsed reference looks like *)

Module ParseFacts.
Import Re TextFacts ReFacts GreedyFacts LanguageFacts.
Import DockerImageReferenceParts DockerImageReference.
Import ExclusivityFacts NameFacts TagFacts HostFacts RoundTrip.

(** The patterns inside the five groups. *)
Definition host_body : regex := Alt _host_name_pattern_raw _ipv6_pattern_raw.
Definition port_body : regex := Plus (Class [Rng "0" "9"]).
Definition name_body : regex :=
  Cat name_component (Star (Cat (Lit "/") name_component)).
Definition tag_body : regex :=
  Cat (Class [WordChar])
      (Repeat (Class [WordChar; Ch "."; Ch "-"]) 0 (Some 127)).
Definition digest_body : regex :=
  Cat (Class letter)
  (Cat (Star (Class letter_digit))
  (Cat (Star (Cat (Class [Ch "-"; Ch "_"; Ch "+"; Ch "."])
             (Cat (Class letter) (Star (Class letter_digit)))))
  (Cat (Lit ":")
       (Repeat (Class [Rng "A" "F"; Rng "a" "f"; Rng "0" "9"]) 32 None)))).

(** What follows the name in the matched text. *)
Inductive suffix : Type :=
| Bare
| WithTag (t : string)
| WithDigest (d : string).

(** The pieces of the matched text: the host with the port text if
    any, the name, and the suffix. *)
Record parsed : Type := mkParsed {
  p_registry : option (string * option string);
  p_name : string;
  p_suffix : suffix
}.

Definition registry_text (reg : option (string * option string)) : string :=
  match reg with
  | Some (h, p) => h ++ Grammar.port_text p ++ "/"
  | None => ""
  end.

Definition suffix_text (q : suffix) : string :=
  match q with
  | Bare => ""
  | WithTag t => ":" ++ t
  | WithDigest d => "@" ++ d
  end.

Definition parsed_text (p : parsed) : string :=
  registry_text (p_registry p) ++ p_name p ++ suffix_text (p_suffix p).

Definition registry_env (reg : option (string * option string)) : env :=
  match reg with
  | Some (h, p) => add_port p [("host", h)]
  | None => []
  end.

Definition suffix_env (q : suffix) (e : env) : env :=
  match q with
  | Bare => e
  | WithTag t => ("tag", t) :: e
  | WithDigest d => ("digest", d) :: e
  end.

Definition parsed_env (p : parsed) : env :=
  suffix_env (p_suffix p) (("name", p_name p) :: registry_env (p_registry p)).

(** The reference that the setter of [_image] stores for these pieces. *)
Definition parsed_ref (p : parsed) : t :=
  mk (option_map fst (p_registry p))
     (match p_registry p with
      | Some (_, Some digits) => PortStr digits
      | _ => PortInt 443
      end)
     (Some (p_name p))
     (match p_suffix p with WithTag t => Some t | _ => None end)
     (match p_suffix p with WithDigest d => Some d | _ => None end).

Definition port_formed (p : option string) : Prop :=
  match p with
  | Some digits => lang port_body digits
  | None => True
  end.

Definition suffix_formed (q : suffix) : Prop :=
  match q with
  | Bare => True
  | WithTag t => lang tag_body t
  | WithDigest d => lang digest_body d
  end.

Definition well_formed (p : parsed) : Prop :=
  match p_registry p with
  | Some (h, pt) => lang host_body h /\ port_formed pt
  | None => True
  end
  /\ lang name_body (p_name p)
  /\ suffix_formed (p_suffix p).

(** *** Taking a match apart *)

Lemma registry_inv s e k m :
  run (Cat _registry_pattern_raw (Lit "/")) s e k = Some m ->
  exists h pt rest,
    s = h ++ Grammar.port_text pt ++ "/" ++ rest
    /\ lang host_body h /\ port_formed pt
    /\ k rest (add_port pt (("host", h) :: e)) = Some m.
Proof.
  unfold _registry_pattern_raw. fold host_body. fold colon_port.
  rewrite !run_cat. intros H.
  apply group_lang in H; [|reflexivity].
  destruct H as (h & s1 & -> & Lh & H).
  apply opt_inv in H as [(k' & Hk' & H) | H].
  - unfold colon_port in H. rewrite run_cat in H.
    apply lit_inv in H as (s2 & -> & H).
    apply group_lang in H; [|reflexivity].
    destruct H as (d & s3 & -> & Ld & H).
    apply Hk' in H. apply lit_inv in H as (rest & -> & H).
    exists h, (Some d), rest. repeat split; auto.
  - apply lit_inv in H as (rest & -> & H).
    exists h, None, rest. repeat split; auto.
Qed.

Lemma suffix_inv s e k m :
  assoc e "tag" = None ->
  run (Cat (Opt colon_tag) (Opt conditional_digest)) s e k = Some m ->
  exists q rest,
    s = suffix_text q ++ rest
    /\ k rest (suffix_env q e) = Some m
    /\ suffix_formed q.
Proof.
  intros Htag. rewrite run_cat. intros H.
  apply opt_inv in H as [(k' & Hk' & H) | H].
  - unfold colon_tag, _tag_pattern_raw in H. fold tag_body in H.
    rewrite run_cat in H.
    apply lit_inv in H as (s1 & -> & H).
    apply group_lang in H; [|reflexivity].
    destruct H as (tg & s2 & -> & Lt & H).
    apply Hk' in H.
    rewrite (@after_tag_nothing_more s2 (("tag", tg) :: e) k tg) in H
      by reflexivity.
    exists (WithTag tg), s2. repeat split; auto.
  - apply opt_inv in H as [(k' & Hk' & H) | H].
    + unfold conditional_digest in H. cbn [run] in H. rewrite Htag in H.
      change (run (Cat (Lit "@") (Group "digest" digest_body)) s e k' = Some m)
        in H.
      rewrite run_cat in H.
      apply lit_inv in H as (s1 & -> & H).
      apply group_lang in H; [|reflexivity].
      destruct H as (d & s2 & -> & Ld & H).
      apply Hk' in H.
      exists (WithDigest d), s2. repeat split; auto.
    + exists Bare, s. repeat split; auto.
Qed.

Lemma name_inv s e k m :
  assoc e "tag" = None ->
  run _repo_name_pattern_raw s e
      (fun s1 e1 =>
         run (Cat (Opt colon_tag) (Opt conditional_digest)) s1 e1 k)
  = Some m ->
  exists nm q rest,
    s = nm ++ suffix_text q ++ rest
    /\ k rest (suffix_env q (("name", nm) :: e)) = Some m
    /\ lang name_body nm /\ suffix_formed q.
Proof.
  intros Htag H. unfold _repo_name_pattern_raw in H. fold name_body in H.
  apply group_lang in H; [|reflexivity].
  destruct H as (nm & s1 & -> & Ln & H).
  apply suffix_inv in H; [|exact Htag].
  destruct H as (q & rest & -> & H & Lq).
  exists nm, q, rest. repeat split; auto.
Qed.

(** Every match of the image pattern is made of these pieces, found at
    the head of the text; the continuation was given what follows
    them, and the captures of the pieces. *)
Lemma image_inv_at s k m :
  run image_pattern s [] k = Some m ->
  exists p rest,
    s = parsed_text p ++ rest
    /\ k rest (parsed_env p) = Some m
    /\ well_formed p.
Proof.
  unfold image_pattern, _image_pattern_raw, _repo_pattern_raw.
  fold colon_tag. fold conditional_digest.
  rewrite !run_cat. intros H.
  apply opt_inv in H as [(k' & Hk' & H) | H].
  - apply registry_inv in H.
    destruct H as (h & pt & s1 & -> & Lh & Lp & H).
    apply Hk' in H. apply name_inv in H; [|now destruct pt].
    destruct H as (nm & q & rest & -> & H & Ln & Lq).
    exists (mkParsed (Some (h, pt)) nm q), rest.
    split; [|split; [exact H | repeat split; auto]].
    unfold parsed_text, registry_text. cbn [p_registry p_name p_suffix].
    now rewrite !append_assoc.
  - apply name_inv in H; [|reflexivity].
    destruct H as (nm & q & rest & -> & H & Ln & Lq).
    exists (mkParsed None nm q), rest.
    split; [|split; [exact H | repeat split; auto]].
    unfold parsed_text, registry_text. cbn [p_registry p_name p_suffix].
    now rewrite !append_assoc.
Qed.

Lemma image_inv s m :
  re_match image_pattern s = Some m ->
  exists p rest,
    s = parsed_text p ++ rest /\ m = parsed_env p /\ well_formed p.
Proof.
  unfold re_match. intros H. apply image_inv_at in H.
  destruct H as (p & rest & -> & H & W). injection H as <-.
  now exists p, rest.
Qed.

Lemma parse_unfold s :
  parse s
  = match re_match image_pattern s with
    | Some m =>
        Return (mk (group m "host")
                   (match group m "port" with
                    | None => PortInt 443
                    | Some p => PortStr p
                    end)
                   (group m "name") (group m "tag") (group m "digest"))
    | None => Raise AttributeError
    end.
Proof.
  unfold parse, __init__, set__image.
  destruct (re_match image_pattern s); reflexivity.
Qed.

Lemma parse_shape s r :
  parse s = Return r ->
  exists p rest,
    s = parsed_text p ++ rest /\ r = parsed_ref p /\ well_formed p.
Proof.
  rewrite parse_unfold.
  destruct (re_match image_pattern s) as [m|] eqn:E; [|discriminate].
  intros H. injection H as <-.
  apply image_inv in E. destruct E as (p & rest & -> & -> & W).
  exists p, rest. split; [reflexivity|]. split; [|exact W].
  destruct p as [[[h [d|]]|] nm [|tg|dg]]; reflexivity.
Qed.

Lemma image_of_parsed p : _image (parsed_ref p) = Return (parsed_text p).
Proof.
  destruct p as [[[h [d|]]|] nm [|tg|dg]];
    unfold _image, parsed_ref, parsed_text, registry_text, suffix_text,
           Grammar.port_text;
    cbn [name host port tag digest p_registry p_name p_suffix option_map fst
         port_is_not_443 format_port negb Z.eqb Pos.eqb];
    repeat (rewrite ?append_assoc, ?append_nil_r; cbn [append]);
    reflexivity.
Qed.

(** *** What the pieces are made of *)

Lemma lower_alnum_alnum c :
  in_class lower_alnum c = true -> in_class alnum c = true.
Proof. revert c. by_chars. Qed.

Lemma only_char x c : in_class [Ch x] c = true -> c = x.
Proof.
  unfold in_class. cbn [existsb item_matches]. rewrite orb_false_r.
  apply Ascii.eqb_eq.
Qed.

Lemma name_head nm :
  lang name_body nm ->
  exists c nm', nm = String c nm' /\ in_class lower_alnum c = true.
Proof.
  unfold name_body, name_component, Plus. cbn [lang].
  intros (w1 & w2 & -> & (w3 & w4 & -> & (ws & -> & Hws & Hlo & _) & _) & _).
  destruct Hws as [|w ws (c & -> & Hc) _]; [simpl in Hlo; lia|].
  exists c. eexists. split; [|exact Hc]. cbn [cat_all append]. reflexivity.
Qed.

Lemma port_digits d :
  lang port_body d -> Grammar.is_run Grammar.digits d = true.
Proof.
  unfold port_body, Plus. intros H.
  apply lang_class_run in H as (Hall & Hlo & _).
  unfold Grammar.is_run. fold Grammar.digits in Hall. rewrite Hall.
  destruct d; [simpl in Hlo; lia | reflexivity].
Qed.

Lemma tag_valid tg : lang tag_body tg -> Grammar.valid_tag tg = true.
Proof.
  unfold tag_body. cbn [lang].
  intros (w1 & w2 & -> & (c & -> & Hc) & H).
  change (lang (Repeat (Class Grammar.tag_tail) 0 (Some 127)) w2) in H.
  apply lang_class_run in H as (Hall & _ & Hhi). simpl in Hhi.
  cbn [append Grammar.valid_tag]. rewrite Hc, Hall. simpl.
  now apply Nat.leb_le.
Qed.

Lemma host_head h :
  lang host_body h ->
  exists c h', h = String c h' /\ (in_class alnum c = true \/ c = "["%char).
Proof.
  unfold host_body, _host_name_pattern_raw, _ipv6_pattern_raw,
         host_component, Lit.
  cbn [lang].
  intros [(w1 & w2 & -> & [(w3 & w4 & -> & (c & -> & Hc) & _)
                          | (c & -> & Hc)] & _)
         | (w1 & w2 & -> & (c & -> & Hc) & _)].
  - exists c. eexists. split; [reflexivity | now left].
  - exists c. eexists. split; [reflexivity | now left].
  - exists c. eexists. split; [reflexivity|]. right. now apply only_char.
Qed.

(** A digest is an algorithm name that starts with a letter, a colon,
    and 32 or more hex digits. *)
Definition digest_formed (d : string) : Prop :=
  exists c algo hex,
    d = String c algo ++ ":" ++ hex
    /\ in_class letter c = true
    /\ str_all (in_class Grammar.hex_chars) hex = true
    /\ 32 <= String.length hex.

Lemma digest_shape d : lang digest_body d -> digest_formed d.
Proof.
  unfold digest_body, Lit. cbn [lang].
  intros (w1 & w2 & -> & (c & -> & Hc)
          & (w3 & w4 & -> & _
             & (w5 & w6 & -> & _ & (w7 & w8 & -> & (x & -> & Hx) & H)))).
  apply only_char in Hx. subst x.
  change (lang (Repeat (Class Grammar.hex_chars) 32 None) w8) in H.
  apply lang_class_run in H as (Hall & Hlo & _).
  exists c, (w3 ++ w5), w8. repeat split; auto.
  cbn [append]. now rewrite !append_assoc.
Qed.

(** *** Parsed references *)

(** X13.  Whatever text it was parsed from, a reference has a name that
    starts with a lowercase letter or a digit; its port is the default
    443 or, next to a host only, the digits found in the text, kept as
    text; its host starts with a letter, a digit or an opening bracket;
    its tag is a word character followed by at most 127 word
    characters, dots and dashes; its digest is an algorithm name, a
    colon and 32 or more hex digits. *)
Theorem parsed_reference_shape
        (image : string) (ref : t) (H : parse image = Return ref) :
  (exists c rest,
      name ref = Some (String c rest) /\ in_class lower_alnum c = true)
  /\ match port ref with
     | PortInt n => n = 443%Z
     | PortStr digits =>
         Grammar.is_run Grammar.digits digits = true /\ host ref <> None
     end
  /\ (forall h, host ref = Some h ->
        exists c rest,
          h = String c rest /\ (in_class alnum c = true \/ c = "["%char))
  /\ (forall tg, tag ref = Some tg -> Grammar.valid_tag tg = true)
  /\ (forall d, digest ref = Some d -> digest_formed d).
Proof.
  apply parse_shape in H.
  destruct H as ([reg nm q] & rest & _ & -> & Wreg & Wnm & Wq).
  cbn [p_registry p_name p_suffix] in Wreg, Wnm, Wq.
  unfold parsed_ref. cbn [name port host tag digest p_registry p_name p_suffix].
  split.
  { destruct (name_head Wnm) as (c & nm' & -> & Hc). now exists c, nm'. }
  split.
  { destruct reg as [[h [d|]]|]; try reflexivity.
    destruct Wreg as [_ Wp]. split; [now apply port_digits | discriminate]. }
  split.
  { intros h Hh. destruct reg as [[h' pt]|]; [|discriminate].
    injection Hh as <-. destruct Wreg as [Wh _]. now apply host_head. }
  split.
  - intros tg Htg. destruct q as [|tg'|d]; try discriminate.
    injection Htg as <-. now apply tag_valid.
  - intros d Hd. destruct q as [|tg|d']; try discriminate.
    injection Hd as <-. now apply digest_shape.
Qed.

Lemma parsed_reference_shape_witness :
  parse "localhost:5000/library/nginx:latest"
  = Return (mk (Some "localhost") (PortStr "5000") (Some "library/nginx")
               (Some "latest") None)
  /\ Grammar.valid_tag "latest" = true.
Proof.
  assert (H : parse "localhost:5000/library/nginx:latest"
              = Return (mk (Some "localhost") (PortStr "5000")
                           (Some "library/nginx") (Some "latest") None))
    by reflexivity.
  split; [exact H|].
  exact (proj1 (proj2 (proj2 (proj2 (@parsed_reference_shape _ _ H))))
               "latest" eq_refl).
Defined.

(** X14.  The text of a parsed reference, as [str] and [repr] give it, is
    the head of the text it was parsed from: the match is made of the
    fields and nothing else, and what follows it in the input is
    dropped without an error. *)
Theorem parsed_text_is_a_prefix
        (image : string) (ref : t) (H : parse image = Return ref) :
  exists text rest,
    __str__ ref = Return text
    /\ __repr__ ref = Return ("DockerImageReference('" ++ text ++ "')")
    /\ image = text ++ rest.
Proof.
  apply parse_shape in H. destruct H as (p & rest & -> & -> & _).
  exists (parsed_text p), rest.
  unfold __repr__, __str__. rewrite image_of_parsed.
  repeat split.
Qed.

Lemma parsed_text_is_a_prefix_witness :
  parse "nginx:1.25 (stable)"
  = Return (mk None (PortInt 443) (Some "nginx") (Some "1.25") None)
  /\ exists text rest,
      __str__ (mk None (PortInt 443) (Some "nginx") (Some "1.25") None)
      = Return text
      /\ __repr__ (mk None (PortInt 443) (Some "nginx") (Some "1.25") None)
         = Return ("DockerImageReference('" ++ text ++ "')")
      /\ "nginx:1.25 (stable)" = text ++ rest.
Proof.
  assert (H : parse "nginx:1.25 (stable)"
              = Return (mk None (PortInt 443) (Some "nginx") (Some "1.25") None))
    by reflexivity.
  split; [exact H|].
  exact (@parsed_text_is_a_prefix _ _ H).
Defined.

(** The text of a parsed reference starts with the first character of
    its host, or of its name when it has no host. *)
Lemma parsed_shape_head image ref :
  parse image = Return ref ->
  exists c, (in_class alnum c = true \/ c = "["%char)
            /\ exists rest, image = String c rest.
Proof.
  intros H. apply parse_shape in H.
  destruct H as ([reg nm q] & rest & -> & _ & Wreg & Wnm & _).
  cbn [p_registry p_name p_suffix] in Wreg, Wnm.
  unfold parsed_text. cbn [p_registry p_name p_suffix].
  destruct reg as [[h pt]|].
  - destruct Wreg as [Wh _]. destruct (host_head Wh) as (c & h' & -> & Hc).
    exists c. split; [exact Hc|]. cbn [registry_text append]. eauto.
  - destruct (name_head Wnm) as (c & nm' & -> & Hc).
    exists c. split; [left; now apply lower_alnum_alnum|].
    cbn [registry_text append]. eauto.
Qed.

(** *** Which texts parse *)

Definition accepting (k : cont) : Prop := forall s e, k s e <> None.

Lemma rep_unbounded_step body k budget lo s e :
  rep body k (S budget) lo None s e
  = match
      body s e
           (fun s' e' =>
              if ((lo =? 0)%nat
                  && (String.length s' =? String.length s)%nat)%bool
              then None
              else rep body k budget (pred lo) None s' e')
    with
    | Some m => Some m
    | None => if (lo =? 0)%nat then k s e else None
    end.
Proof. reflexivity. Qed.

Lemma plus_class_accepts cl c s e k :
  in_class cl c = true -> accepting k ->
  run (Plus (Class cl)) (String c s) e k <> None.
Proof.
  intros Hc Hk. unfold Plus.
  change (rep (run (Class cl)) k (1 + String.length (String c s) + 1) 1 None
              (String c s) e <> None).
  rewrite Nat.add_1_r, rep_unbounded_step.
  cbn [run]. rewrite Hc. cbn [Nat.eqb andb pred].
  match goal with
  | |- match ?x with _ => _ end <> None => destruct x eqn:E
  end; [discriminate|].
  exfalso. revert E. apply rep_accepts. apply Hk.
Qed.

Lemma match_lower_start c s :
  in_class lower_alnum c = true ->
  re_match image_pattern (String c s) <> None.
Proof.
  intros Hc.
  unfold re_match, image_pattern, _image_pattern_raw, _repo_pattern_raw.
  rewrite !run_cat. unfold Opt at 1. apply repeat_accepts.
  unfold _repo_name_pattern_raw, name_component. cbn [run].
  apply plus_class_accepts; [exact Hc|].
  intros s1 e1. unfold Star. apply repeat_accepts. apply repeat_accepts.
  unfold Opt. apply repeat_accepts. apply repeat_accepts.
  discriminate.
Qed.

(** X15.  Parsing raises nothing but AttributeError, the error of a pattern
    that did not match.  It does so on the empty text and on any text
    whose first character is neither a letter, a digit nor an opening
    bracket; and it never does on a text that starts with a lowercase
    letter or a digit, whatever comes after. *)
Theorem parse_outcomes :
  (forall image e, parse image = Raise e -> e = AttributeError)
  /\ parse "" = Raise AttributeError
  /\ (forall c rest,
        in_class alnum c = false -> c <> "["%char ->
        parse (String c rest) = Raise AttributeError)
  /\ (forall c rest,
        in_class lower_alnum c = true ->
        exists ref, parse (String c rest) = Return ref).
Proof.
  assert (E : forall image e, parse image = Raise e -> e = AttributeError).
  { intros image e. rewrite parse_unfold.
    destruct (re_match image_pattern image); congruence. }
  split; [exact E|]. split; [reflexivity|]. split.
  - intros c rest Hc Hb.
    destruct (parse (String c rest)) as [ref|e] eqn:P.
    + exfalso. destruct (@parsed_shape_head _ _ P) as (x & Hx & rest' & Hhead).
      injection Hhead as <- _. destruct Hx as [Hx | Hx]; congruence.
    + now rewrite (E _ _ P).
  - intros c rest Hc. rewrite parse_unfold.
    destruct (re_match image_pattern (String c rest)) eqn:M; [eauto|].
    now apply match_lower_start in M.
Qed.

Lemma parse_outcomes_witness :
  parse "-nginx" = Raise AttributeError
  /\ exists ref, parse "nginx !" = Return ref.
Proof.
  split.
  - apply (proj1 (proj2 (proj2 parse_outcomes))); [reflexivity | discriminate].
  - apply (proj2 (proj2 (proj2 parse_outcomes))). reflexivity.
Defined.

End ParseFacts.

(* ----------------------------------------------------------------- *)
(** ** Image references: what the constructor stores *)

Module ConstructorFacts.
Import Re TextFacts LanguageFacts.
Import DockerImageReferenceParts DockerImageReference ParseFacts.

Lemma parse_set image : parse image = set__image class_defaults image.
Proof.
  unfold parse, __init__.
  change (mutually_exclusive [("tag", @None string); ("digest", None)])
    with (Return tt).
  change (one_required [("image_str", Some image); ("name", None)])
    with (Return tt).
  cbn [bind assign_if_set].
  now destruct (set__image class_defaults image).
Qed.


Lemma name_assigned self v :
  name (assign_if_set set_digest
          (assign_if_set set_tag self None) v) = name self.
Proof. now destruct v. Qed.



(** X20.  The constructor raises nothing but ValueError and
    AttributeError: ValueError only when a tag and a digest are both
    given, or neither a text nor a name is, or the port is a text that
    [int] refuses; AttributeError only when a text is given and does
    not parse. *)
Theorem constructor_errors
        (image_str host_ : option string) (port_ : port_arg)
        (name_ tag_ digest_ : option string) (e : exn)
        (H : __init__ image_str host_ port_ name_ tag_ digest_ = Raise e) :
  (e = ValueError
   /\ ((tag_ <> None /\ digest_ <> None)
       \/ (image_str = None /\ name_ = None)
       \/ exists s, port_ = StrPort s /\ int_of_str s = Raise ValueError))
  \/ (e = AttributeError
      /\ exists image,
          image_str = Some image /\ parse image = Raise AttributeError).
Proof.
  unfold __init__ in H.
  destruct (mutually_exclusive [("tag", tag_); ("digest", digest_)])
    as [[]|x] eqn:M; cbn [bind] in H.
  2: { injection H as <-. left.
       destruct tag_, digest_; try discriminate M. injection M as <-.
       split; [reflexivity|]. left. split; discriminate. }
  destruct (one_required [("image_str", image_str); ("name", name_)])
    as [[]|x] eqn:O; cbn [bind] in H.
  2: { injection H as <-. left.
       destruct image_str, name_; try discriminate O. injection O as <-.
       split; [reflexivity|]. right. left. now split. }
  match type of H with
  | bind ?base _ = _ => destruct base as [self|x] eqn:S
  end; cbn [bind] in H.
  2: { injection H as <-. right.
       destruct image_str as [image|]; [|discriminate S].
       rewrite <- parse_set in S.
       assert (x = AttributeError) as ->.
       { rewrite parse_unfold in S.
         destruct (re_match image_pattern image); congruence. }
       split; [reflexivity|]. now exists image. }
  match type of H with
  | bind ?step _ = _ => destruct step as [self'|x] eqn:P
  end; cbn [bind] in H; [discriminate H|].
  injection H as <-. left.
  destruct port_ as [|s|n]; try discriminate P.
  destruct (int_of_str s) as [n|y] eqn:E; [discriminate P|].
  cbn [bind] in P. injection P as <-.
  assert (y = ValueError) as ->.
  { unfold int_of_str in E.
    match type of E with
    | match ?v with _ => _ end = _ => destruct v
    end; congruence. }
  split; [reflexivity|]. right. right. now exists s.
Qed.

Lemma constructor_errors_witness :
  __init__ (Some "ghcr.io/acme/tool") None (StrPort "https") None None None
  = Raise ValueError
  /\ ((ValueError = ValueError
       /\ ((@None string <> None /\ @None string <> None)
           \/ (Some "ghcr.io/acme/tool" = None /\ @None string = None)
           \/ exists s, StrPort "https" = StrPort s
                        /\ int_of_str s = Raise ValueError))
      \/ (ValueError = AttributeError
          /\ exists image,
              Some "ghcr.io/acme/tool" = Some image
              /\ parse image = Raise AttributeError)).
Proof.
  assert (H : __init__ (Some "ghcr.io/acme/tool") None (StrPort "https")
                       None None None
              = Raise ValueError) by reflexivity.
  split; [exact H|].
  exact (@constructor_errors _ _ _ _ _ _ _ H).
Defined.


(** [v if v is not None else old] *)
Definition or_else (v old : option string) : option string :=
  match v with
  | Some _ => v
  | None => old
  end.

(** X17.  Given next to the text of a reference, explicit fields replace
    what was parsed, one by one.  Tag and digest are checked against
    each other as arguments only: an explicit tag on a text that holds
    a digest gives a reference with both, whose text shows the tag and
    leaves the digest out. *)
Theorem explicit_fields_override
        (image : string) (parsed : t) (H : parse image = Return parsed) :
  (forall host_ name_ tag_ digest_,
      tag_ = None \/ digest_ = None ->
      __init__ (Some image) host_ NoPort name_ tag_ digest_
      = Return (mk (or_else host_ (host parsed)) (port parsed)
                   (or_else name_ (name parsed))
                   (or_else tag_ (tag parsed))
                   (or_else digest_ (digest parsed))))
  /\ (forall tg d,
        digest parsed = Some d ->
        exists ref text,
          __init__ (Some image) None NoPort None (Some tg) None = Return ref
          /\ tag ref = Some tg /\ digest ref = Some d
          /\ __str__ ref = Return (text ++ ":" ++ tg)).
Proof.
  assert (O : forall host_ name_ tag_ digest_,
             tag_ = None \/ digest_ = None ->
             __init__ (Some image) host_ NoPort name_ tag_ digest_
             = Return (mk (or_else host_ (host parsed)) (port parsed)
                          (or_else name_ (name parsed))
                          (or_else tag_ (tag parsed))
                          (or_else digest_ (digest parsed)))).
  { intros h n tg d E. rewrite parse_set in H. unfold __init__.
    assert (M : mutually_exclusive [("tag", tg); ("digest", d)] = Return tt).
    { destruct E as [-> | ->]; [now destruct d | now destruct tg]. }
    rewrite M.
    assert (R : one_required [("image_str", Some image); ("name", n)]
                = Return tt) by now destruct n.
    rewrite R. cbn [bind]. rewrite H. cbn [bind].
    destruct parsed; destruct h, n, tg, d; reflexivity. }
  split; [exact O|].
  intros tg d Hd.
  destruct (@parse_shape _ _ H) as (p & rest & _ & E & _).
  exists (mk (host parsed) (port parsed) (name parsed) (Some tg) (Some d)).
  assert (Nm : name parsed = Some (p_name p)) by now rewrite E.
  eexists.
  split; [|split; [reflexivity | split; [reflexivity|]]].
  - rewrite (O None None (Some tg) None) by now right.
    cbn [or_else]. now rewrite Hd.
  - unfold __str__, _image. cbn [name host port tag digest]. rewrite Nm.
    reflexivity.
Qed.

Definition pinned : string :=
  "foo@sha256:0123456789abcdef0123456789abcdef".

Lemma explicit_fields_override_witness :
  parse pinned
  = Return (mk None (PortInt 443) (Some "foo") None
               (Some "sha256:0123456789abcdef0123456789abcdef"))
  /\ __init__ (Some pinned) None NoPort None (Some "v1") None
     = Return (mk None (PortInt 443) (Some "foo") (Some "v1")
                  (Some "sha256:0123456789abcdef0123456789abcdef")).
Proof.
  assert (H : parse pinned
              = Return (mk None (PortInt 443) (Some "foo") None
                           (Some "sha256:0123456789abcdef0123456789abcdef")))
    by reflexivity.
  split; [exact H|].
  exact (proj1 (@explicit_fields_override _ _ H) None None (Some "v1") None
               (or_intror eq_refl)).
Defined.

End ConstructorFacts.

(* ----------------------------------------------------------------- *)
(** ** Ports: text and number *)

Module PortFacts.
Import Re TextFacts DockerImageReference NameFacts.


















End PortFacts.

(* ----------------------------------------------------------------- *)
(** ** The matcher: the same match on the matched text alone *)

Module CutFacts.
Import Re TextFacts ReFacts GreedyFacts.

(** [k'] refuses wherever [k] does. *)
Definition below (k' k : cont) : Prop :=
  forall y e, k y e = None -> k' y e = None.

(** With [k], [f] ends at a point that decides the result: any
    continuation that refuses where [k] does and returns the same at
    that point gives the same result. *)
Definition decided (f : cont -> option env) (k : cont) (m : env) : Prop :=
  exists x e',
    k x e' = Some m
    /\ forall k', below k' k -> k' x e' = Some m -> f k' = Some m.

Section RepetitionRestricted.

Variable body : string -> env -> cont -> option env.
Hypothesis body_mono :
  forall s e k k', below k' k -> body s e k = None -> body s e k' = None.
Hypothesis body_trace :
  forall s e k m, body s e k = Some m -> decided (body s e) k m.

Lemma rep_mono k k' budget :
  below k' k ->
  forall lo hi s e,
    rep body k budget lo hi s e = None -> rep body k' budget lo hi s e = None.
Proof.
  intros B. induction budget as [|budget IH]; intros lo hi s e H.
  - simpl in *. destruct (lo =? 0)%nat; [now apply B | reflexivity].
  - assert (Stop : (if (lo =? 0)%nat then k s e else None) = None ->
                   (if (lo =? 0)%nat then k' s e else None) = None).
    { destruct (lo =? 0)%nat; [apply B | reflexivity]. }
    cbn [rep] in *.
    destruct hi as [[|hi]|]; auto.
    + destruct (body s e _) as [m|] eqn:E; [discriminate|].
      eapply body_mono in E; [rewrite E; auto|].
      intros y e' Hy. destruct (_ && _)%bool; [reflexivity|]. now apply IH.
    + destruct (body s e _) as [m|] eqn:E; [discriminate|].
      eapply body_mono in E; [rewrite E; auto|].
      intros y e' Hy. destruct (_ && _)%bool; [reflexivity|]. now apply IH.
Qed.

Lemma rep_trace budget :
  forall k lo hi s e m,
    rep body k budget lo hi s e = Some m ->
    decided (fun k => rep body k budget lo hi s e) k m.
Proof.
  induction budget as [|budget IH]; intros k lo hi s e m H.
  - simpl in H. destruct (lo =? 0)%nat eqn:L; [|discriminate].
    exists s, e. split; [exact H|]. intros k' _ H'. simpl. now rewrite L.
  - assert (Stop : (if (lo =? 0)%nat then k s e else None) = Some m ->
                   exists x e',
                     k x e' = Some m
                     /\ forall k', below k' k -> k' x e' = Some m ->
                                   (if (lo =? 0)%nat then k' s e else None)
                                   = Some m).
    { destruct (lo =? 0)%nat; [|discriminate]. intros E.
      exists s, e. split; [exact E|]. auto. }
    assert (Step : forall hi',
               match
                 body s e
                      (fun s' e' =>
                         if ((lo =? 0)%nat
                             && (String.length s' =? String.length s)%nat)%bool
                         then None
                         else rep body k budget (pred lo) hi' s' e')
               with
               | Some m => Some m
               | None => if (lo =? 0)%nat then k s e else None
               end = Some m ->
               exists x e',
                 k x e' = Some m
                 /\ forall k', below k' k -> k' x e' = Some m ->
                      match
                        body s e
                             (fun s' e' =>
                                if ((lo =? 0)%nat
                                    && (String.length s' =? String.length s)%nat)%bool
                                then None
                                else rep body k' budget (pred lo) hi' s' e')
                      with
                      | Some m => Some m
                      | None => if (lo =? 0)%nat then k' s e else None
                      end = Some m).
    { intros hi' E.
      destruct (body s e _) as [m'|] eqn:Bd.
      - injection E as ->. apply body_trace in Bd.
        destruct Bd as (x1 & e1 & K1 & P1).
        destruct ((lo =? 0)%nat && (String.length x1 =? String.length s)%nat)%bool
          eqn:Pr; [discriminate|].
        apply IH in K1. destruct K1 as (x & e' & Kx & P).
        exists x, e'. split; [exact Kx|].
        intros k' Bk Hk'.
        rewrite (P1 (fun s' e' =>
                      if ((lo =? 0)%nat
                          && (String.length s' =? String.length s)%nat)%bool
                      then None
                      else rep body k' budget (pred lo) hi' s' e')).
        + reflexivity.
        + intros y e'' Hy. cbn beta in Hy |- *.
          destruct ((lo =? 0)%nat
                    && (String.length y =? String.length s)%nat)%bool;
            [reflexivity|].
          eapply rep_mono; eauto.
        + cbn beta. rewrite Pr. now apply P.
      - destruct (Stop E) as (x & e' & Kx & P).
        exists x, e'. split; [exact Kx|].
        intros k' Bk Hk'.
        eapply body_mono in Bd; [rewrite Bd; now apply P|].
        intros y e'' Hy. cbn beta in Hy |- *.
        destruct ((lo =? 0)%nat
                  && (String.length y =? String.length s)%nat)%bool;
          [reflexivity|].
        eapply rep_mono; eauto. }
    cbn [rep] in H. unfold decided. cbn [rep].
    destruct hi as [[|hi]|]; auto.
Qed.

End RepetitionRestricted.

(** A continuation that refuses more cannot turn a failure into a
    match. *)
Lemma run_mono r :
  forall s e k k', below k' k -> run r s e k = None -> run r s e k' = None.
Proof.
  induction r as [cl | r1 IH1 r2 IH2 | r1 IH1 r2 IH2 | r IH lo hi
                  | name r IH | name yes IHy no IHn |];
    intros s e k k' B H; cbn [run] in *.
  - destruct s as [|c s']; [reflexivity|].
    destruct (in_class cl c); [now apply B | reflexivity].
  - eapply IH1; [|exact H]. intros y e' Hy. eapply IH2; eauto.
  - destruct (run r1 s e k) eqn:E; [discriminate|].
    rewrite (IH1 _ _ _ _ B E). now apply (IH2 _ _ _ _ B).
  - eapply rep_mono; eauto.
  - eapply IH; [|exact H]. intros y e' Hy. now apply B.
  - destruct (assoc e name); eauto.
  - destruct (at_eol s); [now apply B | reflexivity].
Qed.

(** A match is decided at the point where its path reached the
    continuation. *)
Lemma run_trace r :
  forall s e k m, run r s e k = Some m -> decided (run r s e) k m.
Proof.
  induction r as [cl | r1 IH1 r2 IH2 | r1 IH1 r2 IH2 | r IH lo hi
                  | name r IH | name yes IHy no IHn |];
    intros s e k m H; cbn [run] in H; unfold decided; cbn [run].
  - destruct s as [|c s']; [discriminate|].
    destruct (in_class cl c); [|discriminate].
    exists s', e. split; auto.
  - apply IH1 in H. destruct H as (x1 & e1 & K1 & P1).
    apply IH2 in K1. destruct K1 as (x & e' & Kx & P).
    exists x, e'. split; [exact Kx|].
    intros k' Bk Hk'. apply P1.
    + intros y e'' Hy. now apply (@run_mono r2 _ _ _ _ Bk).
    + now apply P.
  - destruct (run r1 s e k) as [m'|] eqn:E.
    + injection H as ->. apply IH1 in E. destruct E as (x & e' & Kx & P).
      exists x, e'. split; [exact Kx|].
      intros k' Bk Hk'. now rewrite (P k' Bk Hk').
    + apply IH2 in H. destruct H as (x & e' & Kx & P).
      exists x, e'. split; [exact Kx|].
      intros k' Bk Hk'. rewrite (@run_mono r1 _ _ _ _ Bk E). now apply P.
  - apply (@rep_trace (run r) (run_mono r) IH) in H. exact H.
  - apply IH in H. destruct H as (x & e1 & Kx & P).
    exists x, ((name, take (String.length s - String.length x) s) :: e1).
    split; [exact Kx|].
    intros k' Bk Hk'. apply P; [|exact Hk'].
    intros y e'' Hy. now apply Bk.
  - destruct (assoc e name).
    + apply IHy in H. exact H.
    + apply IHn in H. exact H.
  - destruct (at_eol s); [|discriminate].
    exists s, e. split; auto.
Qed.

(** *** Two continuations that accept at the same points *)

(** Both fail, or both succeed with related results. *)
Definition alike (R : env -> env -> Prop) (a b : option env) : Prop :=
  match a, b with
  | None, None => True
  | Some m, Some m' => R m m'
  | _, _ => False
  end.

Section RepetitionAlike.

Variable R : env -> env -> Prop.
Variable body : string -> env -> cont -> option env.
Hypothesis body_alike :
  forall s e k k',
    (forall y e', alike R (k y e') (k' y e')) ->
    alike R (body s e k) (body s e k').

Lemma rep_alike k k' budget :
  (forall y e', alike R (k y e') (k' y e')) ->
  forall lo hi s e,
    alike R (rep body k budget lo hi s e) (rep body k' budget lo hi s e).
Proof.
  intros A. induction budget as [|budget IH]; intros lo hi s e.
  - simpl. destruct (lo =? 0)%nat; [apply A | exact I].
  - assert (Stop : alike R (if (lo =? 0)%nat then k s e else None)
                           (if (lo =? 0)%nat then k' s e else None)).
    { destruct (lo =? 0)%nat; [apply A | exact I]. }
    assert (Step : forall hi',
               alike R
                 match
                   body s e
                        (fun s' e' =>
                           if ((lo =? 0)%nat
                               && (String.length s' =? String.length s)%nat)%bool
                           then None
                           else rep body k budget (pred lo) hi' s' e')
                 with
                 | Some m => Some m
                 | None => if (lo =? 0)%nat then k s e else None
                 end
                 match
                   body s e
                        (fun s' e' =>
                           if ((lo =? 0)%nat
                               && (String.length s' =? String.length s)%nat)%bool
                           then None
                           else rep body k' budget (pred lo) hi' s' e')
                 with
                 | Some m => Some m
                 | None => if (lo =? 0)%nat then k' s e else None
                 end).
    { intros hi'.
      pose proof (body_alike s e
                    (fun s' e' =>
                       if ((lo =? 0)%nat
                           && (String.length s' =? String.length s)%nat)%bool
                       then None
                       else rep body k budget (pred lo) hi' s' e')
                    (fun s' e' =>
                       if ((lo =? 0)%nat
                           && (String.length s' =? String.length s)%nat)%bool
                       then None
                       else rep body k' budget (pred lo) hi' s' e')) as Bd.
      destruct (body s e _) as [m1|]; destruct (body s e _) as [m2|];
        try (apply Bd; intros y e'; destruct (_ && _)%bool; [exact I | apply IH]).
      - exfalso. apply Bd.
        intros y e'; destruct (_ && _)%bool; [exact I | apply IH].
      - exfalso. apply Bd.
        intros y e'; destruct (_ && _)%bool; [exact I | apply IH].
      - exact Stop. }
    cbn [rep]. destruct hi as [[|hi]|]; auto.
Qed.

End RepetitionAlike.

Lemma run_alike R r :
  forall s e k k',
    (forall y e', alike R (k y e') (k' y e')) ->
    alike R (run r s e k) (run r s e k').
Proof.
  induction r as [cl | r1 IH1 r2 IH2 | r1 IH1 r2 IH2 | r IH lo hi
                  | name r IH | name yes IHy no IHn |];
    intros s e k k' A; cbn [run].
  - destruct s as [|c s']; [exact I|].
    destruct (in_class cl c); [apply A | exact I].
  - apply IH1. intros y e'. now apply IH2.
  - pose proof (IH1 s e k k' A) as H1. pose proof (IH2 s e k k' A) as H2.
    destruct (run r1 s e k); destruct (run r1 s e k'); try exact H1;
      try (exfalso; exact H1).
    exact H2.
  - apply rep_alike; [exact IH | exact A].
  - apply IH. intros y e'. apply A.
  - destruct (assoc e name); auto.
  - destruct (at_eol s); [apply A | exact I].
Qed.

(** *** Leaving out the text after the match *)

(** No [$] in the pattern. *)
Fixpoint plain (r : regex) : bool :=
  match r with
  | Class _ => true
  | Cat r1 r2 | Alt r1 r2 => (plain r1 && plain r2)%bool
  | Repeat r' _ _ => plain r'
  | Group _ r' => plain r'
  | IfGroup _ yes no => (plain yes && plain no)%bool
  | Eol => false
  end.

(** [kG] on a text that ends with [x] is [kS] on that text without
    [x], and [kG] refuses any text shorter than [x]. *)
Definition cut (x : string) (kG kS : cont) : Prop :=
  (forall y e, kG (y ++ x) e = kS y e)
  /\ (forall z e, String.length z < String.length x -> kG z e = None).

Lemma reaches_shorter ns s e k m :
  reaches ns s e k m ->
  exists s' e', String.length s' <= String.length s /\ k s' e' = Some m.
Proof.
  intros (p & s' & new & -> & H & _). exists s', (new ++ e)%list.
  split; [rewrite length_append; lia | exact H].
Qed.

Lemma run_short r n s e k :
  (forall z e', String.length z < n -> k z e' = None) ->
  String.length s < n -> run r s e k = None.
Proof.
  intros K L. destruct (run r s e k) as [m|] eqn:E; [|reflexivity].
  apply run_sound, reaches_shorter in E. destruct E as (s' & e' & L' & E).
  rewrite K in E by lia. discriminate.
Qed.

Lemma take_cut p x n : n <= String.length p -> take n (p ++ x) = take n p.
Proof.
  revert n. induction p as [|c p IH]; intros n L; simpl in L.
  - replace n with 0 by lia. now destruct x.
  - destruct n as [|n]; [reflexivity|]. simpl. f_equal. apply IH. lia.
Qed.

Section RepetitionCut.

Variable body : string -> env -> cont -> option env.
Variable ns : list string.
Variable x : string.
Hypothesis body_sound :
  forall s e k m, body s e k = Some m -> reaches ns s e k m.
Hypothesis body_cut :
  forall p e kG kS, cut x kG kS -> body (p ++ x) e kG = body p e kS.

Lemma rep_short k budget lo hi s e :
  (forall z e', String.length z < String.length x -> k z e' = None) ->
  String.length s < String.length x ->
  rep body k budget lo hi s e = None.
Proof.
  intros K L. destruct (rep body k budget lo hi s e) as [m|] eqn:E;
    [|reflexivity].
  apply (@rep_sound body ns body_sound), reaches_shorter in E.
  destruct E as (s' & e' & L' & E).
  rewrite K in E by lia. discriminate.
Qed.

Lemma rep_cut kG kS budget :
  cut x kG kS ->
  forall lo hi p e,
    rep body kG budget lo hi (p ++ x) e = rep body kS budget lo hi p e.
Proof.
  intros [C1 C2]. induction budget as [|budget IH]; intros lo hi p e.
  - simpl. now rewrite C1.
  - cbn [rep]. rewrite C1.
    assert (B : forall hi',
               body (p ++ x) e
                    (fun s' e' =>
                       if ((lo =? 0)%nat
                           && (String.length s' =? String.length (p ++ x))%nat)%bool
                       then None
                       else rep body kG budget (pred lo) hi' s' e')
               = body p e
                      (fun s' e' =>
                         if ((lo =? 0)%nat
                             && (String.length s' =? String.length p)%nat)%bool
                         then None
                         else rep body kS budget (pred lo) hi' s' e')).
    { intros hi'. apply body_cut. split.
      - intros y e'. rewrite !length_append.
        replace (String.length y + String.length x =?
                 String.length p + String.length x)%nat
          with (String.length y =? String.length p)%nat.
        + destruct (_ && _)%bool; [reflexivity | apply IH].
        + destruct (String.length y =? String.length p)%nat eqn:E.
          * apply Nat.eqb_eq in E. symmetry. apply Nat.eqb_eq. lia.
          * apply Nat.eqb_neq in E. symmetry. apply Nat.eqb_neq. lia.
      - intros z e' L. destruct (_ && _)%bool; [reflexivity|].
        now apply rep_short. }
    destruct hi as [[|hi]|]; auto; now rewrite B.
Qed.

End RepetitionCut.

(** A pattern without [$] finds on a text what it finds on the text
    followed by [x], when the continuation does not let it go into
    [x]. *)
Lemma run_cut r x :
  plain r = true ->
  forall p e kG kS, cut x kG kS -> run r (p ++ x) e kG = run r p e kS.
Proof.
  induction r as [cl | r1 IH1 r2 IH2 | r1 IH1 r2 IH2 | r IH lo hi
                  | name r IH | name yes IHy no IHn |];
    intros Hp p e kG kS C; cbn [plain] in Hp; cbn [run].
  - destruct C as [C1 C2]. destruct p as [|c p]; cbn [append].
    + destruct x as [|c x']; [reflexivity|].
      destruct (in_class cl c); [|reflexivity]. apply C2. simpl. lia.
    + destruct (in_class cl c); [apply C1 | reflexivity].
  - apply andb_prop in Hp as [H1 H2]. apply (IH1 H1). split.
    + intros y e'. now apply (IH2 H2).
    + intros z e' L. apply (@run_short r2 (String.length x)); [|exact L].
      apply C.
  - apply andb_prop in Hp as [H1 H2].
    now rewrite (IH1 H1 p e kG kS C), (IH2 H2 p e kG kS C).
  - rewrite (@rep_cut (run r) (names r) x (run_sound r) (IH Hp) kG kS _ C).
    pose proof (budget_suffices r lo hi p e kS (String.length x)) as B.
    cbn [run] in B. rewrite B. f_equal. rewrite length_append. lia.
  - destruct C as [C1 C2]. apply (IH Hp). split.
    + intros y e'. rewrite C1. rewrite !length_append.
      destruct (Nat.le_gt_cases (String.length y) (String.length p)) as [L|L].
      * replace (String.length p + String.length x
                 - (String.length y + String.length x))
          with (String.length p - String.length y) by lia.
        rewrite take_cut by lia. reflexivity.
      * replace (String.length p + String.length x
                 - (String.length y + String.length x)) with 0 by lia.
        replace (String.length p - String.length y) with 0 by lia.
        now destruct p, x.
    + intros z e' L. now apply C2.
  - apply andb_prop in Hp as [H1 H2]. destruct (assoc e name); auto.
  - discriminate.
Qed.

End CutFacts.

(* ----------------------------------------------------------------- *)
(** ** Image references: the text of a parsed reference parses back *)

Module StabilityFacts.
Import Re TextFacts ReFacts GreedyFacts LanguageFacts CutFacts.
Import DockerImageReferenceParts DockerImageReference.
Import ExclusivityFacts TagFacts RoundTrip ParseFacts.

(** A continuation that accepts as [re_match] does and also records,
    under the empty name, the text left where the match ended. *)
Definition mark (rest : string) : cont :=
  fun y e => Some (("", y ++ rest) :: e).

Definition marked (m m' : env) : Prop := exists y, m' = ("", y) :: m.

Lemma run_marked r s rest m :
  run r s [] done = Some m ->
  exists x, run r s [] (mark rest) = Some (("", x) :: m).
Proof.
  intros H.
  pose proof (@run_alike marked r s [] done (mark rest)) as A.
  rewrite H in A.
  destruct (run r s [] (mark rest)) as [m'|].
  - destruct A as [x ->]; [|now exists x].
    intros y e'. exists (y ++ rest). reflexivity.
  - exfalso. apply A. intros y e'. exists (y ++ rest). reflexivity.
Qed.

Lemma run_unmarked r s rest x m :
  run r s [] (mark rest) = Some (("", x) :: m) ->
  run r s [] done = Some m.
Proof.
  intros H.
  pose proof (@run_alike marked r s [] done (mark rest)) as A.
  rewrite H in A.
  destruct (run r s [] done) as [m1|].
  - destruct A as [y E].
    + intros z e'. exists (z ++ rest). reflexivity.
    + now injection E as _ ->.
  - exfalso. apply A. intros z e'. exists (z ++ rest). reflexivity.
Qed.

Lemma opt_unfold r s e k :
  run (Opt r) s e k
  = match
      run r s e
          (fun s' e' =>
             if (String.length s' =? String.length s)%nat
             then None else k s' e')
    with
    | Some m => Some m
    | None => k s e
    end.
Proof.
  unfold Opt. cbn [run]. rewrite Nat.add_1_r.
  cbn [Nat.add rep Nat.eqb andb pred option_map].
  rewrite (@run_ext r s e _
             (fun s' e' =>
                if (String.length s' =? String.length s)%nat
                then None else k s' e')).
  - reflexivity.
  - intros s' e' _. cbn beta.
    destruct (String.length s' =? String.length s)%nat; [reflexivity|].
    apply rep_zero.
Qed.

(** Before any tag was captured, the last group is the optional
    at-sign and digest. *)
Lemma conditional_without_tag s e k :
  assoc e "tag" = None ->
  run (Opt conditional_digest) s e k
  = run (Opt (Cat (Lit "@") _digest_pattern_raw)) s e k.
Proof.
  intros H. rewrite !opt_unfold. unfold conditional_digest at 1.
  cbn [run]. now rewrite H.
Qed.

(** The image pattern finds on a text what it finds on the text
    followed by [x], when the continuation does not let it go into
    [x]. *)
Lemma image_cut x kG kS p :
  cut x kG kS ->
  run image_pattern (p ++ x) [] kG = run image_pattern p [] kS.
Proof.
  intros C.
  change (run (Cat _repo_pattern_raw (Opt colon_tag)) (p ++ x) []
              (fun s2 e2 => run (Opt conditional_digest) s2 e2 kG)
          = run (Cat _repo_pattern_raw (Opt colon_tag)) p []
                (fun s2 e2 => run (Opt conditional_digest) s2 e2 kS)).
  apply run_cut; [reflexivity|]. split.
  - intros y e. destruct (assoc e "tag") as [tg|] eqn:T.
    + rewrite !(@after_tag_nothing_more _ _ _ _ T). apply C.
    + rewrite !(@conditional_without_tag _ _ _ T).
      apply run_cut; [reflexivity | exact C].
  - intros z e L. apply (@run_short _ (String.length x)); [|exact L].
    apply C.
Qed.

Lemma append_cancel_r (a b x : string) : a ++ x = b ++ x -> a = b.
Proof.
  revert b. induction a as [|c a IH]; intros b H.
  - destruct b as [|d b]; [reflexivity|].
    apply (f_equal String.length) in H. simpl in H.
    rewrite length_append in H. lia.
  - destruct b as [|d b].
    + apply (f_equal String.length) in H. simpl in H.
      rewrite length_append in H. lia.
    + simpl in H. injection H as -> H. f_equal. now apply IH.
Qed.

(** A match of the image pattern is found again, with the same
    captures, on the matched text alone. *)
Lemma match_again s m :
  re_match image_pattern s = Some m ->
  exists p rest,
    s = parsed_text p ++ rest
    /\ m = parsed_env p
    /\ re_match image_pattern (parsed_text p) = Some m.
Proof.
  unfold re_match. fold done. intros H.
  destruct (run_marked _ _ "" H) as (x & Hm).
  destruct (image_inv_at _ _ Hm) as (p & rest & -> & E & _).
  unfold mark in E. rewrite append_nil_r in E.
  injection E as E1 E2. subst x m.
  exists p, rest. split; [reflexivity|]. split; [reflexivity|].
  destruct (run_trace _ _ _ _ Hm) as (x0 & e0 & K0 & P).
  unfold mark in K0. rewrite append_nil_r in K0.
  injection K0 as K1 K2. subst x0 e0.
  pose (kG := fun z e' =>
                if (String.length rest <=? String.length z)%nat
                then mark "" z e' else None).
  assert (G : run image_pattern (parsed_text p ++ rest) [] kG
              = Some (("", rest) :: parsed_env p)).
  { apply P.
    - intros y e' Hy. discriminate Hy.
    - unfold kG. rewrite Nat.leb_refl. unfold mark.
      now rewrite append_nil_r. }
  rewrite (@image_cut rest kG (mark rest) (parsed_text p)) in G.
  - now apply run_unmarked in G.
  - split.
    + intros y e'. unfold kG, mark.
      rewrite append_nil_r, length_append.
      replace (String.length rest <=? String.length y + String.length rest)%nat
        with true; [reflexivity|].
      symmetry. apply Nat.leb_le. lia.
    + intros z e' L. unfold kG.
      replace (String.length rest <=? String.length z)%nat with false;
        [reflexivity|].
      symmetry. apply Nat.leb_gt. exact L.
Qed.

(** X19.  The text of a parsed reference parses back to the same
    reference: parsing what [str] gives for a reference that was
    parsed from any text returns that reference again, field by
    field. *)
Theorem parsed_text_parses_back
        (image : string) (ref : t) (H : parse image = Return ref) :
  exists text, __str__ ref = Return text /\ parse text = Return ref.
Proof.
  rewrite parse_unfold in H.
  destruct (re_match image_pattern image) as [m|] eqn:E; [|discriminate].
  destruct (match_again _ E) as (p & rest & _ & Hm & Again).
  exists (parsed_text p). split.
  - injection H as <-. subst m. unfold __str__.
    rewrite <- image_of_parsed. f_equal.
    destruct p as [[[h [d|]]|] nm [|tg|dg]]; reflexivity.
  - rewrite parse_unfold, Again. exact H.
Qed.

Lemma parsed_text_parses_back_witness :
  parse "nginx:1.25 (stable)"
  = Return (mk None (PortInt 443) (Some "nginx") (Some "1.25") None)
  /\ exists text,
      __str__ (mk None (PortInt 443) (Some "nginx") (Some "1.25") None)
      = Return text
      /\ parse text
         = Return (mk None (PortInt 443) (Some "nginx") (Some "1.25") None).
Proof.
  assert (H : parse "nginx:1.25 (stable)"
              = Return (mk None (PortInt 443) (Some "nginx") (Some "1.25") None))
    by reflexivity.
  split; [exact H|].
  exact (@parsed_text_parses_back _ _ H).
Defined.

End StabilityFacts.
